(** * Image_Encryption.py: the XOR + pixel-swap transform and its GUI shell

    A shallow embedding of [src/Image_Encryption.py].

    - Python integers are [Z]; [%] with a positive divisor is [Z.modulo] and
      [^] is [Z.lxor].
    - A decoded RGB image (what [Image.open(..).convert("RGB")] followed by
      [img.load()] gives) is a record holding [img.size] and the pixel rows.
    - Pixel access [pixels[x, y]] is fallible: out of range it raises
      [IndexError]; exceptions are a [result] monad.
    - The [for] loops that mutate the buffer in place are folds that thread
      the buffer through the loop body. *)

From stdpp Require Import base option list gmap strings.
From Stdlib Require Import ZArith Lia Ascii.

Open Scope Z_scope.

(** ** Exceptions *)

Inductive exn : Type :=
  | IndexError
  | ValueError
  | FileNotFoundError
  | UnidentifiedImageError
  | OSError.

Inductive result (A : Type) : Type :=
  | Ok (a : A)
  | Raise (e : exn).
Arguments Ok {A} a.
Arguments Raise {A} e.

#[global] Instance result_ret : MRet result := fun _ a => Ok a.
#[global] Instance result_bind : MBind result := fun _ _ f m =>
  match m with
  | Ok a => f a
  | Raise e => Raise e
  end.

(** [for i in l: s = body(i, s)], stopping at the first exception. *)
Fixpoint for_each {S : Type} (l : list nat) (body : nat -> S -> result S)
    (s : S) : result S :=
  match l with
  | [] => Ok s
  | i :: l' =>
      match body i s with
      | Ok s' => for_each l' body s'
      | Raise e => Raise e
      end
  end.

(** Python's [range(n)]. *)
Definition range (n : nat) : list nat := seq 0 n.

(** ** Image buffer *)

Definition pixel : Type := Z * Z * Z.

Record Image : Type := mkImage {
  width : nat;
  height : nat;
  rows : list (list pixel)
}.

(** The buffer holds [height] rows of [width] pixels each. *)
Definition wf_image (img : Image) : Prop :=
  length (rows img) = height img /\
  Forall (fun r => length r = width img) (rows img).

(** [img] is a well-formed buffer with the dimensions of [img0]. *)
Definition same_shape (img0 img : Image) : Prop :=
  width img = width img0 /\ height img = height img0 /\ wf_image img.

(** Every channel is an 8-bit value. *)
Definition channel_ok (c : Z) : Prop := 0 <= c < 256.
Definition pixel_ok (p : pixel) : Prop :=
  channel_ok p.1.1 /\ channel_ok p.1.2 /\ channel_ok p.2.
Definition rgb_image (img : Image) : Prop :=
  Forall (Forall pixel_ok) (rows img).

Definition pixel_count (img : Image) : nat := length (concat (rows img)).

(** The content of the buffer at column [x] of row [y], if any. *)
Definition pix (img : Image) (x y : nat) : option pixel :=
  rows img !! y ≫= fun r => r !! x.

(** [pixels[x, y]] *)
Definition getpixel (img : Image) (x y : nat) : result pixel :=
  match pix img x y with
  | Some p => Ok p
  | None => Raise IndexError
  end.

(** [pixels[x, y] = p].  The buffer of the source holds 8-bit channels; the
    channels are [Z] here and stored as given, which is what the source does
    for every value in [0, 255], the only values that [transform_image]
    writes into a buffer of such values. *)
Definition putpixel (img : Image) (x y : nat) (p : pixel) : result Image :=
  match rows img !! y with
  | Some r =>
      if decide (x < length r)%nat
      then Ok (mkImage (width img) (height img)
                 (<[y := <[x := p]> r]> (rows img)))
      else Raise IndexError
  | None => Raise IndexError
  end.

(** ** The transform (lines 24-44 of [transform_image]) *)

(** Lines 29-35: the body of the colour loop. *)
Definition xor_pixel (key : Z) (p : pixel) : pixel :=
  let '(r, g, b) := p in
  (Z.lxor r key, Z.lxor g key, Z.lxor b key).

Definition xor_body (key : Z) (y x : nat) (img : Image) : result Image :=
  p ← getpixel img x y;
  putpixel img x y (xor_pixel key p).

(** Lines 27-35: "1) Color transform: XOR each channel with key". *)
Definition xor_stage (key : Z) (img : Image) : result Image :=
  let w := width img in
  let h := height img in
  for_each (range h) (fun y => for_each (range w) (xor_body key y)) img.

(** Line 40: [(x + y + key) % 2 == 0]. *)
Definition swaps (key : Z) (x y : nat) : bool :=
  (Z.of_nat x + Z.of_nat y + key) mod 2 =? 0.

(** Lines 40-44: the body of the position loop.  [x] ranges over
    [range(width // 2)], so [width - 1 - x] is never negative and the
    truncated subtraction of [nat] is the subtraction of the source. *)
Definition swap_body (w : nat) (key : Z) (y x : nat) (img : Image)
    : result Image :=
  if swaps key x y then
    let x2 := (w - 1 - x)%nat in
    p1 ← getpixel img x y;
    p2 ← getpixel img x2 y;
    img' ← putpixel img x y p2;
    putpixel img' x2 y p1
  else Ok img.

(** Lines 38-44: "2) Position transform: swap some pixel pairs in each row". *)
Definition swap_stage (key : Z) (img : Image) : result Image :=
  let w := width img in
  let h := height img in
  for_each (range h) (fun y => for_each (range (w / 2)%nat) (swap_body w key y))
    img.

(** Lines 24-44: key reduction, then the two stages, on the loaded buffer. *)
Definition transform (img : Image) (key : Z) : result Image :=
  let key := key mod 256 in
  img1 ← xor_stage key img;
  swap_stage key img1.

(** The column whose pixel sits in column [x] of row [y] once the position
    loop has handled the columns below [n] of that row ([n <= w / 2]); it
    reads the coordinates, the width and the key, and no pixel. *)
Definition swap_source (n w : nat) (key : Z) (y x : nat) : nat :=
  if decide (x < n)%nat then
    if swaps key x y then (w - 1 - x)%nat else x
  else if decide (x < w /\ w - 1 - x < n)%nat then
    if swaps key (w - 1 - x)%nat y then (w - 1 - x)%nat else x
  else x.

(** The permutation of the columns of row [y] that Stage 2 applies. *)
Definition swap_perm (w : nat) (key : Z) (y x : nat) : nat :=
  swap_source (w / 2) w key y x.

(** ** Python strings

    A [str] is the list of its characters; the model covers the code points
    below 256. *)

Abbreviation str := (list ascii).
Abbreviation lit := String.list_ascii_of_string.

Definition code (c : ascii) : N := N_of_ascii c.

(** [c.isspace()] on the code points below 256. *)
Definition is_space (c : ascii) : bool :=
  let n := code c in
  ((9 <=? n) && (n <=? 13) || (28 <=? n) && (n <=? 32) || (n =? 133)
   || (n =? 160))%N.

(** The decimal digits, the only digits [int()] reads below 256. *)
Definition is_decimal (c : ascii) : bool :=
  let n := code c in ((48 <=? n) && (n <=? 57))%N.

(** [c.isdigit()] on the code points below 256: the decimal digits and the
    superscripts two, three and one. *)
Definition is_digit (c : ascii) : bool :=
  let n := code c in
  (is_decimal c || (n =? 178) || (n =? 179) || (n =? 185))%N.

(** [s.lstrip(...)], the characters to strip given as a predicate. *)
Fixpoint lstrip_chars (f : ascii -> bool) (s : str) : str :=
  match s with
  | [] => []
  | c :: s' => if f c then lstrip_chars f s' else s
  end.

Definition rstrip_chars (f : ascii -> bool) (s : str) : str :=
  rev (lstrip_chars f (rev s)).

(** [s.strip()] *)
Definition strip (s : str) : str := rstrip_chars is_space (lstrip_chars is_space s).

(** [s.lstrip("-")] *)
Definition lstrip_minus (s : str) : str :=
  lstrip_chars (fun c => Ascii.eqb c "-") s.

(** [s.isdigit()]: at least one character, and all of them digits. *)
Definition isdigit (s : str) : bool :=
  match s with
  | [] => false
  | _ => forallb is_digit s
  end.

(** The digits of an [int()] literal in base 10: decimal digits, with single
    underscores allowed between two digits.  [after_digit] tells whether the
    character just read was a digit. *)
Fixpoint int_digits (acc : Z) (after_digit : bool) (s : str) : option Z :=
  match s with
  | [] => if after_digit then Some acc else None
  | c :: s' =>
      if is_decimal c then
        int_digits (10 * acc + (Z.of_N (code c) - 48)) true s'
      else if Ascii.eqb c "_" && after_digit then int_digits acc false s'
      else None
  end.

(** The whitespace that [int()] skips around a literal: the characters of
    C's [isspace] and, from code point 127 on, the Unicode spaces.  Unlike
    [str.strip] it keeps the separators 28 to 31. *)
Definition is_int_space (c : ascii) : bool :=
  let n := code c in
  ((9 <=? n) && (n <=? 13) || (n =? 32) || (n =? 133) || (n =? 160))%N.

(** [sys.int_info.default_max_str_digits], the most digits that [int()]
    converts. *)
Definition max_str_digits : nat := 4300.

(** The number of digit characters of a literal. *)
Fixpoint digit_count (s : str) : nat :=
  match s with
  | [] => O
  | c :: s' => if is_decimal c then S (digit_count s') else digit_count s'
  end.

(** [int(s)] for a string [s]: surrounding whitespace is dropped, then one
    optional sign, then the digits; a literal of more than
    [max_str_digits] digits is refused. *)
Definition int (s : str) : result Z :=
  let s := rstrip_chars is_int_space (lstrip_chars is_int_space s) in
  let '(negative, body) :=
    match s with
    | c :: s' =>
        if Ascii.eqb c "-" then (true, s')
        else if Ascii.eqb c "+" then (false, s')
        else (false, s)
    | [] => (false, s)
    end in
  match int_digits 0 false body with
  | Some n =>
      if (digit_count body <=? max_str_digits)%nat
      then Ok (if negative : bool then - n else n)
      else Raise ValueError
  | None => Raise ValueError
  end.

(** [s.rfind(c)] for a one-character [c]: the highest index of [c] in [s],
    or [-1]. *)
Fixpoint rfind (c : ascii) (s : str) : Z :=
  match s with
  | [] => -1
  | a :: s' =>
      let r := rfind c s' in
      if 0 <=? r then r + 1 else if Ascii.eqb a c then 0 else -1
  end.

(** ** [os.path.splitext]

    [genericpath._splitext(p, sep, altsep, extsep)], which both [posixpath]
    (with [sep = "/"] and no [altsep]) and [ntpath] (with [sep = "\"] and
    [altsep = "/"]) call with [extsep = "."]. *)

(** The [while filenameIndex < dotIndex] loop, [n] iterations before
    [filenameIndex] reaches [dotIndex]: [true] when it returns from inside,
    at a character that is not [extsep]. *)
Fixpoint skip_leading_dots (p : str) (extsep : ascii) (filenameIndex n : nat)
    : bool :=
  match n with
  | O => false
  | S n' =>
      if decide (p !! filenameIndex ≠ Some extsep) then true
      else skip_leading_dots p extsep (S filenameIndex) n'
  end.

Definition _splitext (p : str) (sep : ascii) (altsep : option ascii)
    (extsep : ascii) : str * str :=
  let sepIndex := rfind sep p in
  let sepIndex :=
    match altsep with
    | Some a => Z.max sepIndex (rfind a p)
    | None => sepIndex
    end in
  let dotIndex := rfind extsep p in
  if (dotIndex >? sepIndex)
     && skip_leading_dots p extsep (Z.to_nat (sepIndex + 1))
          (Z.to_nat (dotIndex - (sepIndex + 1)))
  then (take (Z.to_nat dotIndex) p, drop (Z.to_nat dotIndex) p)
  else (p, []).

(** ** Files and the GUI callbacks *)

(** What a path holds: an image ([Image.open(..).convert("RGB")] gives the
    buffer) or a file that is not a readable image. *)
Inductive file : Type :=
  | ImageFile (img : Image)
  | OtherFile.

(** What [messagebox.showerror] and [messagebox.showinfo] were called with;
    [ShowFailure] is [showerror] with a message built from a caught
    exception. *)
Inductive dialog : Type :=
  | ShowError (message : str)
  | ShowInfo (message : str)
  | ShowFailure (message : str) (e : exn).

(** What [validate_inputs] returns: [(None, None)] after an error dialog, or
    [(path, key)]. *)
Inductive validation : Type :=
  | Rejected (d : dialog)
  | Accepted (path : str) (key : Z).

Section App.
(** [os.sep] and [os.altsep] of the platform. *)
Variable sep : ascii.
Variable altsep : option ascii.
(** [img.save(path)]: the file it writes, or the exception it raises. *)
Variable save : Image -> str -> result file.

Definition splitext (p : str) : str * str := _splitext p sep altsep ".".

(** [os.path.isfile] *)
Definition isfile (fs : gmap str file) (path : str) : bool :=
  bool_decide (is_Some (fs !! path)).

(** [Image.open(path).convert("RGB")] *)
Definition image_open (fs : gmap str file) (path : str) : result Image :=
  match fs !! path with
  | None => Raise FileNotFoundError
  | Some OtherFile => Raise UnidentifiedImageError
  | Some (ImageFile img) => Ok img
  end.

(** [transform_image(input_path, output_path, key)], lines 10-46. *)
Definition transform_image (fs : gmap str file) (input_path output_path : str)
    (key : Z) : result (gmap str file) :=
  img ← image_open fs input_path;
  img' ← transform img key;
  f ← save img' output_path;
  Ok (<[output_path := f]> fs).

(** [ImageEncryptionApp.validate_inputs], lines 156-177; [image_path] and
    [key_value] are the contents of the two entry fields. *)
Definition validate_inputs (fs : gmap str file) (image_path key_value : str)
    : result validation :=
  let path := strip image_path in
  let key_str := strip key_value in
  if bool_decide (path = []) then
    Ok (Rejected (ShowError (lit "Please select an image file.")))
  else if negb (isfile fs path) then
    Ok (Rejected (ShowError (lit "File not found. Please check the path.")))
  else if bool_decide (key_str = []) then
    Ok (Rejected (ShowError (lit "Please enter a numeric key.")))
  else if negb (isdigit (lstrip_minus key_str)) then
    Ok (Rejected (ShowError (lit "Key must be a valid integer.")))
  else
    key ← int key_str;
    Ok (Accepted path key).

(** [ImageEncryptionApp.encrypt_action], lines 179-192.  The status label
    is not modelled; the result is the files afterwards and the dialog
    shown, if any. *)
Definition encrypt_action (fs : gmap str file) (image_path key_value : str)
    : result (gmap str file * option dialog) :=
  v ← validate_inputs fs image_path key_value;
  match v with
  | Rejected d => Ok (fs, Some d)
  | Accepted path key =>
      let '(base, ext) := splitext path in
      let output_path := base ++ lit "_encrypted" ++ ext in
      match transform_image fs path output_path key with
      | Ok fs' =>
          Ok (fs', Some (ShowInfo
                (lit "Image encrypted and saved as:" ++ ["010"%char]
                 ++ output_path)))
      | Raise e =>
          Ok (fs, Some (ShowFailure (lit "Encryption failed:") e))
      end
  end.

(** [ImageEncryptionApp.decrypt_action], lines 194-207. *)
Definition decrypt_action (fs : gmap str file) (image_path key_value : str)
    : result (gmap str file * option dialog) :=
  v ← validate_inputs fs image_path key_value;
  match v with
  | Rejected d => Ok (fs, Some d)
  | Accepted path key =>
      let '(base, ext) := splitext path in
      let output_path := base ++ lit "_decrypted" ++ ext in
      match transform_image fs path output_path key with
      | Ok fs' =>
          Ok (fs', Some (ShowInfo
                (lit "Image decrypted and saved as:" ++ ["010"%char]
                 ++ output_path)))
      | Raise e =>
          Ok (fs, Some (ShowFailure (lit "Decryption failed:") e))
      end
  end.
End App.

(** The separators of the two [os.path] implementations: [posixpath] has
    [sep = "/"] and no [altsep], [ntpath] has [sep = "\"] and [altsep = "/"]. *)
Definition path_separators (sep : ascii) (altsep : option ascii) : Prop :=
  (sep = "/"%char /\ altsep = None) \/
  (sep = "\"%char /\ altsep = Some "/"%char).

(** The number that a string of decimal digits writes in base 10. *)
Definition decimal_value (ds : str) : Z :=
  fold_left (fun acc c => 10 * acc + (Z.of_N (code c) - 48)) ds 0.

(** An encoder that stores the buffer as it is (a lossless format). *)
Definition lossless (save : Image -> str -> result file) : Prop :=
  forall img path, save img path = Ok (ImageFile img).

(** ** Sample data *)

Definition scenario : Image :=
  mkImage 2 1 [[(10, 20, 30); (40, 50, 60)]].

Definition scenario_out : Image :=
  mkImage 2 1 [[(15, 17, 27); (45, 55, 57)]].

Definition three_wide : Image :=
  mkImage 3 2 [[(1, 2, 3); (4, 5, 6); (7, 8, 9)];
               [(10, 11, 12); (13, 14, 15); (16, 17, 18)]].

(** A folder holding one image, and an encoder that never fails and loses
    nothing. *)
Definition photo_folder : gmap str file :=
  {[ lit "photo.png" := ImageFile scenario ]}.

Definition save_exact (img : Image) (path : str) : result file :=
  Ok (ImageFile img).

(** * Proofs *)

(** ** The definitions at work *)

Example scenario_once : transform scenario 5 = Ok scenario_out.
Proof. reflexivity. Qed.

Example int_examples :
  int (lit " -12 ") = Ok (-12) /\ int (lit "1_000") = Ok 1000 /\
  int (lit "--5") = Raise ValueError /\ int (lit "1__0") = Raise ValueError /\
  int (lit "") = Raise ValueError /\ int (lit "+7") = Ok 7.
Proof. repeat split; reflexivity. Qed.

Example splitext_examples :
  _splitext (lit "a/b.c/img.tar.png") "/" None "." = (lit "a/b.c/img.tar", lit ".png") /\
  _splitext (lit "a/.bashrc") "/" None "." = (lit "a/.bashrc", lit "") /\
  _splitext (lit "a.b/c") "/" None "." = (lit "a.b/c", lit "") /\
  _splitext (lit "..x.y") "/" None "." = (lit "..x", lit ".y") /\
  _splitext (lit "foo.") "/" None "." = (lit "foo", lit ".").
Proof. repeat split; reflexivity. Qed.

Example int_whitespace_and_limit :
  int (ascii_of_nat 28 :: lit "5") = Raise ValueError /\
  int (ascii_of_nat 160 :: lit "5") = Ok 5 /\
  int (replicate 4300 "1"%char) <> Raise ValueError /\
  int (replicate 4301 "1"%char) = Raise ValueError.
Proof.
  split; [reflexivity |]. split; [reflexivity |]. split.
  - vm_compute. discriminate.
  - vm_compute. reflexivity.
Qed.

Example isdigit_superscript :
  isdigit [ascii_of_nat 178] = true /\
  int [ascii_of_nat 178] = Raise ValueError.
Proof. split; reflexivity. Qed.

(** ** Loops *)

Section Loop.
Context {St : Type}.
Variable body : nat -> St -> result St.

(** The invariant rule for [for i in range(a, a + n)]: the loop runs to
    its end and the invariant holds there. *)
Lemma for_each_seq_inv (P : nat -> St -> Prop) (n a : nat) (s : St) :
  P a s ->
  (forall i t, (a <= i < a + n)%nat -> P i t ->
     exists t', body i t = Ok t' /\ P (S i) t') ->
  exists s', for_each (seq a n) body s = Ok s' /\ P (a + n)%nat s'.
Proof.
  revert a s. induction n as [|n IH]; intros a s Ha Hstep.
  - exists s. rewrite Nat.add_0_r. done.
  - destruct (Hstep a s) as (t & Hb & Ht); [lia | done |].
    destruct (IH (S a) t) as (s' & Hs' & HP); [done | |].
    + intros i u Hi. apply Hstep. lia.
    + exists s'. simpl. rewrite Hb. split; [done |].
      by replace (a + S n)%nat with (S a + n)%nat by lia.
Qed.

Lemma for_range_inv (P : nat -> St -> Prop) (n : nat) (s : St) :
  P O s ->
  (forall i t, (i < n)%nat -> P i t ->
     exists t', body i t = Ok t' /\ P (S i) t') ->
  exists s', for_each (range n) body s = Ok s' /\ P n s'.
Proof.
  intros H0 Hstep.
  destruct (for_each_seq_inv P n 0 s) as (s' & ? & ?); eauto.
  intros i t Hi. apply Hstep. lia.
Qed.
End Loop.

(** ** Pixel access *)

Lemma pix_bounds (img : Image) (x y : nat) (p : pixel) :
  wf_image img -> pix img x y = Some p ->
  (x < width img)%nat /\ (y < height img)%nat.
Proof.
  intros [Hh Hw] Hp. unfold pix in Hp.
  destruct (rows img !! y) as [r|] eqn:Hr; [|done]. simpl in Hp.
  split.
  - rewrite Forall_lookup in Hw. rewrite <- (Hw _ _ Hr).
    by eapply lookup_lt_Some.
  - rewrite <- Hh. by eapply lookup_lt_Some.
Qed.

Lemma pix_in_range (img : Image) (x y : nat) :
  wf_image img -> (x < width img)%nat -> (y < height img)%nat ->
  exists p, pix img x y = Some p.
Proof.
  intros [Hh Hw] Hx Hy. unfold pix.
  destruct (lookup_lt_is_Some_2 (rows img) y) as [r Hr]; [lia |].
  rewrite Hr. simpl. apply lookup_lt_is_Some_2.
  rewrite Forall_lookup in Hw. by rewrite (Hw _ _ Hr).
Qed.

Lemma pix_out_of_range (img : Image) (x y : nat) :
  wf_image img -> (width img <= x)%nat \/ (height img <= y)%nat ->
  pix img x y = None.
Proof.
  intros Hwf Hout. destruct (pix img x y) as [p|] eqn:Hp; [|done].
  apply pix_bounds in Hp; [lia | done].
Qed.

Lemma getpixel_pix (img : Image) (x y : nat) (p : pixel) :
  pix img x y = Some p -> getpixel img x y = Ok p.
Proof. intros H. unfold getpixel. by rewrite H. Qed.

(** On a well-formed buffer [pixels[x, y]] raises exactly outside
    [0 <= x < width], [0 <= y < height]. *)
Lemma getpixel_IndexError (img : Image) (x y : nat) :
  wf_image img ->
  getpixel img x y = Raise IndexError <->
  (width img <= x)%nat \/ (height img <= y)%nat.
Proof.
  intros Hwf. unfold getpixel. split.
  - destruct (pix img x y) as [p|] eqn:Hp; [done |]. intros _.
    destruct (decide (x < width img)%nat); [| lia].
    destruct (decide (y < height img)%nat); [| lia].
    destruct (pix_in_range img x y) as [p Hp']; [done | done | done |].
    congruence.
  - intros Hout. by rewrite pix_out_of_range.
Qed.

Lemma putpixel_pix (img img' : Image) (x y : nat) (p : pixel) :
  putpixel img x y p = Ok img' ->
  forall x' y',
    pix img' x' y' = if decide (x' = x /\ y' = y) then Some p else pix img x' y'.
Proof.
  unfold putpixel. destruct (rows img !! y) as [r|] eqn:Hr; [|done].
  case_decide as Hx; [|done]. intros [= <-] x' y'. unfold pix. simpl.
  destruct (decide (y' = y)) as [->|Hy].
  - rewrite list_lookup_insert_eq by (by eapply lookup_lt_Some).
    rewrite Hr. simpl. destruct (decide (x' = x)) as [->|Hx'].
    + rewrite list_lookup_insert_eq by done. by rewrite decide_True.
    + rewrite list_lookup_insert_ne by done. rewrite decide_False; [done | tauto].
  - rewrite list_lookup_insert_ne by done. rewrite decide_False; [done | tauto].
Qed.

Lemma putpixel_shape (img0 img img' : Image) (x y : nat) (p : pixel) :
  putpixel img x y p = Ok img' -> same_shape img0 img -> same_shape img0 img'.
Proof.
  unfold putpixel. destruct (rows img !! y) as [r|] eqn:Hr; [|done].
  case_decide as Hx; [|done]. intros [= <-] (Hw & Hh & Hl & Hf).
  repeat split; simpl; try done.
  - by rewrite length_insert.
  - apply Forall_insert; [done |]. rewrite length_insert.
    rewrite Forall_lookup in Hf. by apply (Hf _ _ Hr).
Qed.

Lemma putpixel_in_range (img : Image) (x y : nat) (p : pixel) :
  wf_image img -> (x < width img)%nat -> (y < height img)%nat ->
  exists img', putpixel img x y p = Ok img'.
Proof.
  intros [Hh Hw] Hx Hy. unfold putpixel.
  destruct (lookup_lt_is_Some_2 (rows img) y) as [r Hr]; [lia |].
  rewrite Hr. rewrite Forall_lookup in Hw. rewrite (Hw _ _ Hr).
  rewrite decide_True by done. eauto.
Qed.

(** Two buffers of the same shape that agree at every position are equal. *)
Lemma image_ext (a b : Image) :
  same_shape a b -> wf_image a ->
  (forall x y, pix b x y = pix a x y) -> b = a.
Proof.
  destruct a as [wa ha ra], b as [wb hb rb].
  intros (Hw & Hh & Hlb & Hfb) [Hla Hfa] Hpix. simpl in *. subst wb hb.
  f_equal. apply list_eq. intros y.
  destruct (rb !! y) as [r1|] eqn:H1, (ra !! y) as [r2|] eqn:H2.
  - f_equal. apply list_eq. intros x.
    specialize (Hpix x y). unfold pix in Hpix. simpl in Hpix.
    by rewrite H1, H2 in Hpix.
  - apply lookup_lt_Some in H1. apply lookup_ge_None in H2. lia.
  - apply lookup_lt_Some in H2. apply lookup_ge_None in H1. lia.
  - done.
Qed.

(** ** Stage 1 *)

Ltac cases_decide :=
  repeat case_decide; try done; try lia.

Lemma xor_body_step (key : Z) (img0 s : Image) (x y : nat) :
  same_shape img0 s -> (x < width img0)%nat -> (y < height img0)%nat ->
  exists p s', pix s x y = Some p /\ xor_body key y x s = Ok s' /\
    same_shape img0 s' /\
    forall x' y', pix s' x' y' =
      if decide (x' = x /\ y' = y) then Some (xor_pixel key p) else pix s x' y'.
Proof.
  intros Hs Hx Hy. pose proof Hs as (Hw & Hh & Hwf).
  destruct (pix_in_range s x y) as [p Hp]; [done | lia | lia |].
  destruct (putpixel_in_range s x y (xor_pixel key p)) as [s' Hs'];
    [done | lia | lia |].
  exists p, s'. split; [done |]. split.
  - unfold xor_body. by rewrite (getpixel_pix _ _ _ _ Hp).
  - split; [by eapply putpixel_shape | by apply putpixel_pix].
Qed.

(** Stage 1 runs to its end on a well-formed buffer, keeps its shape and
    XORs every pixel in place. *)
Lemma xor_stage_spec (key : Z) (img : Image) :
  wf_image img ->
  exists img', xor_stage key img = Ok img' /\ same_shape img img' /\
    forall x y, pix img' x y = xor_pixel key <$> pix img x y.
Proof.
  intros Hwf. unfold xor_stage.
  set (Q := fun (y : nat) (s : Image) =>
    same_shape img s /\
    forall x' y', pix s x' y' =
      if decide (y' < y)%nat then xor_pixel key <$> pix img x' y'
      else pix img x' y').
  destruct (for_range_inv
              (fun y => for_each (range (width img)) (xor_body key y))
              Q (height img) img) as (img' & Hrun & Hshape & Hpix).
  - split; [by split; [| split] |]. intros x' y'. cases_decide.
  - intros y s Hy [Hs Hsp].
    set (P := fun (x : nat) (t : Image) =>
      same_shape img t /\
      forall x' y', pix t x' y' =
        if decide (y' < y \/ (y' = y /\ x' < x))%nat
        then xor_pixel key <$> pix img x' y' else pix img x' y').
    destruct (for_range_inv (xor_body key y) P (width img) s)
      as (t & Hrun & Ht & Htp).
    + split; [done |]. intros x' y'. rewrite Hsp. cases_decide.
    + intros x t Hx [Ht Htp].
      destruct (xor_body_step key img t x y) as (p & t' & Hp & Hb & Ht' & Hp');
        [done | done | done |].
      exists t'. split; [done |]. split; [done |].
      intros x' y'. rewrite Hp'. rewrite Htp in Hp.
      rewrite decide_False in Hp by lia.
      destruct (decide (x' = x /\ y' = y)) as [[-> ->]|Hne].
      * rewrite decide_True by lia. by rewrite Hp.
      * rewrite Htp. cases_decide.
    + exists t. split; [done |]. split; [done |].
      intros x' y'. rewrite Htp.
      destruct (decide (y' < S y)%nat), (decide (y' < y \/ (y' = y /\ x' < width img))%nat);
        try done; try lia.
      rewrite pix_out_of_range; [done | done | lia].
  - exists img'. split; [done |]. split; [done |].
    intros x y. rewrite Hpix. case_decide; [done |].
    rewrite pix_out_of_range; [done | done | lia].
Qed.

(** ** Stage 2 *)

Lemma half_facts (w : nat) : (2 * (w / 2) <= w < 2 * (w / 2) + 2)%nat.
Proof.
  pose proof (Nat.div_mod_eq w 2). pose proof (Nat.mod_upper_bound w 2). lia.
Qed.

Lemma swap_body_step (key : Z) (img0 s : Image) (n y : nat) :
  same_shape img0 s -> (n < width img0 / 2)%nat -> (y < height img0)%nat ->
  exists s', swap_body (width img0) key y n s = Ok s' /\ same_shape img0 s' /\
    forall x' y', pix s' x' y' =
      if decide (y' = y /\ swaps key n y = true /\ x' = n)
      then pix s (width img0 - 1 - n)%nat y
      else if decide (y' = y /\ swaps key n y = true
                      /\ x' = (width img0 - 1 - n)%nat)
      then pix s n y
      else pix s x' y'.
Proof.
  intros Hs Hn Hy. pose proof Hs as (Hw & Hh & Hwf).
  pose proof (half_facts (width img0)) as Hhalf.
  unfold swap_body. destruct (swaps key n y) eqn:Hsw.
  - destruct (pix_in_range s n y) as [p1 Hp1]; [done | lia | lia |].
    destruct (pix_in_range s (width img0 - 1 - n) y) as [p2 Hp2];
      [done | lia | lia |].
    destruct (putpixel_in_range s n y p2) as [s1 Hs1]; [done | lia | lia |].
    pose proof (putpixel_shape img0 _ _ _ _ _ Hs1 Hs) as Hshape1.
    destruct (putpixel_in_range s1 (width img0 - 1 - n) y p1) as [s2 Hs2].
    { apply Hshape1. }
    { destruct Hshape1 as (-> & _). lia. }
    { destruct Hshape1 as (_ & -> & _). lia. }
    exists s2. rewrite (getpixel_pix _ _ _ _ Hp1), (getpixel_pix _ _ _ _ Hp2).
    simpl. rewrite Hs1. simpl. split; [done |].
    split; [by eapply putpixel_shape |].
    intros x' y'. rewrite (putpixel_pix _ _ _ _ _ Hs2).
    rewrite (putpixel_pix _ _ _ _ _ Hs1). rewrite Hp1, Hp2.
    cases_decide; tauto.
  - exists s. split; [done |]. split; [done |].
    intros x' y'. cases_decide; naive_solver.
Qed.

Lemma swap_source_0 (w : nat) (key : Z) (y x : nat) :
  swap_source 0 w key y x = x.
Proof. unfold swap_source. cases_decide. Qed.

(** Handling column [n] composes the permutation with the exchange of [n]
    and [w - 1 - n], when the parity test holds. *)
Lemma swap_source_S (n w : nat) (key : Z) (y x : nat) :
  (n < w / 2)%nat ->
  swap_source (S n) w key y x =
    if decide (swaps key n y = true /\ x = n) then (w - 1 - n)%nat
    else if decide (swaps key n y = true /\ x = (w - 1 - n)%nat) then n
    else swap_source n w key y x.
Proof.
  intros Hn. pose proof (half_facts w) as Hhalf. unfold swap_source.
  destruct (decide (x = n)) as [->|Hxn].
  - rewrite decide_True by lia. rewrite (decide_False (P := (n < n)%nat)) by lia.
    rewrite (decide_False (P := (n < w /\ w - 1 - n < n)%nat)) by lia.
    destruct (swaps key n y); cases_decide; naive_solver.
  - destruct (decide (x = (w - 1 - n)%nat)) as [->|Hxm].
    + replace (w - 1 - (w - 1 - n))%nat with n by lia.
      rewrite (decide_False (P := (w - 1 - n < S n)%nat)) by lia.
      rewrite (decide_True (P := (w - 1 - n < w /\ n < S n)%nat)) by lia.
      rewrite (decide_False (P := (w - 1 - n < n)%nat)) by lia.
      rewrite (decide_False (P := (w - 1 - n < w /\ n < n)%nat)) by lia.
      destruct (swaps key n y); cases_decide; naive_solver.
    + rewrite (decide_False (P := (_ /\ x = n))) by tauto.
      rewrite (decide_False (P := (_ /\ x = (w - 1 - n)%nat))) by tauto.
      cases_decide.
Qed.

(** Stage 2 runs to its end on a well-formed buffer, keeps its shape and
    moves the pixels of each row along [swap_perm]. *)
Lemma swap_stage_spec (key : Z) (img : Image) :
  wf_image img ->
  exists img', swap_stage key img = Ok img' /\ same_shape img img' /\
    forall x y, pix img' x y = pix img (swap_perm (width img) key y x) y.
Proof.
  intros Hwf. unfold swap_stage, swap_perm.
  set (w := width img).
  set (Q := fun (y : nat) (s : Image) =>
    same_shape img s /\
    forall x' y', pix s x' y' =
      pix img (swap_source (if decide (y' < y)%nat then w / 2 else 0)%nat
                 w key y' x') y').
  destruct (for_range_inv
              (fun y => for_each (range (w / 2)) (swap_body w key y))
              Q (height img) img) as (img' & Hrun & Hshape & Hpix).
  - split; [by split; [| split] |]. intros x' y'.
    rewrite decide_False by lia. by rewrite swap_source_0.
  - intros y s Hy [Hs Hsp].
    set (P := fun (n : nat) (t : Image) =>
      same_shape img t /\
      forall x' y', pix t x' y' =
        pix img (swap_source
                   (if decide (y' < y)%nat then w / 2
                    else if decide (y' = y) then n else 0)%nat
                   w key y' x') y').
    destruct (for_range_inv (swap_body w key y) P (w / 2)%nat s)
      as (t & Hrun & Ht & Htp).
    + split; [done |]. intros x' y'. rewrite Hsp.
      repeat case_decide; done.
    + intros n t Hn [Ht Htp].
      destruct (swap_body_step key img t n y) as (t' & Hb & Ht' & Hp');
        [done | done | done |].
      exists t'. split; [done |]. split; [done |].
      intros x' y'. rewrite Hp', !Htp. fold w.
      rewrite (decide_False (P := (y < y)%nat)) by lia.
      rewrite (decide_True (P := (y = y))) by done.
      destruct (decide (y' = y)) as [->|Hy'].
      * rewrite !(decide_False (P := (y < y)%nat)) by lia.
        rewrite (swap_source_S n) by done.
        pose proof (half_facts w) as Hhalf.
        repeat case_decide; try done; try tauto;
          f_equal; unfold swap_source; cases_decide.
      * rewrite !(decide_False (P := (y' = y /\ _))) by tauto.
        repeat case_decide; done.
    + exists t. split; [done |]. split; [done |].
      intros x' y'. rewrite Htp.
      repeat case_decide; try done; try lia.
  - exists img'. split; [done |]. split; [done |].
    intros x y. rewrite Hpix. case_decide; [done |].
    rewrite !(pix_out_of_range img) by (done || lia). done.
Qed.

(** ** The whole transform *)

Lemma transform_spec (img : Image) (key : Z) :
  wf_image img ->
  exists img', transform img key = Ok img' /\ same_shape img img' /\
    forall x y,
      pix img' x y =
      xor_pixel (key mod 256)
        <$> pix img (swap_perm (width img) (key mod 256) y x) y.
Proof.
  intros Hwf. unfold transform.
  destruct (xor_stage_spec (key mod 256) img Hwf) as (img1 & H1 & Hs1 & Hp1).
  destruct (swap_stage_spec (key mod 256) img1) as (img2 & H2 & Hs2 & Hp2).
  { apply Hs1. }
  exists img2. rewrite H1. simpl. split; [done |].
  destruct Hs1 as (Hw1 & Hh1 & Hwf1), Hs2 as (Hw2 & Hh2 & Hwf2).
  split; [split; [| split]; congruence |].
  intros x y. by rewrite Hp2, Hp1, Hw1.
Qed.

Lemma xor_pixel_twice (key : Z) (p : pixel) :
  xor_pixel key (xor_pixel key p) = p.
Proof.
  destruct p as [[r g] b]. unfold xor_pixel.
  by rewrite !Z.lxor_assoc, !Z.lxor_nilpotent, !Z.lxor_0_r.
Qed.

Lemma xor_pixel_0 (p : pixel) : xor_pixel 0 p = p.
Proof. destruct p as [[r g] b]. unfold xor_pixel. by rewrite !Z.lxor_0_r. Qed.

(** The column pairing of Stage 2 is its own inverse. *)
Lemma swap_perm_involutive (w : nat) (key : Z) (y x : nat) :
  swap_perm w key y (swap_perm w key y x) = x.
Proof.
  unfold swap_perm, swap_source. pose proof (half_facts w) as Hhalf.
  destruct (decide (x < w / 2)%nat) as [Hx|Hx].
  - destruct (swaps key x y) eqn:Hsw.
    + rewrite decide_False by lia. rewrite decide_True by lia.
      replace (w - 1 - (w - 1 - x))%nat with x by lia.
      by rewrite Hsw.
    + rewrite decide_True by lia. by rewrite Hsw.
  - destruct (decide (x < w /\ w - 1 - x < w / 2)%nat) as [Hm|Hm].
    + destruct (swaps key (w - 1 - x)%nat y) eqn:Hsw.
      * rewrite decide_True by lia. rewrite Hsw. lia.
      * rewrite decide_False by lia. rewrite decide_True by lia.
        by rewrite Hsw.
    + rewrite decide_False by lia. by rewrite decide_False by lia.
Qed.

Lemma swap_perm_middle (w : nat) (key : Z) (y : nat) :
  Nat.odd w = true -> swap_perm w key y (w / 2) = (w / 2)%nat.
Proof.
  intros Hodd. unfold swap_perm, swap_source.
  rewrite decide_False by lia.
  assert (w = 2 * (w / 2) + 1)%nat as Hw.
  { pose proof (Nat.div_mod_eq w 2) as Hdm.
    rewrite <- Nat.bit0_mod, Nat.bit0_odd, Hodd in Hdm. cbn [Nat.b2n] in Hdm. lia. }
  rewrite decide_False by lia. done.
Qed.

Lemma swap_perm_low (w : nat) (key : Z) (y x : nat) :
  (x < w / 2)%nat ->
  swap_perm w key y x = if swaps key x y then (w - 1 - x)%nat else x.
Proof. intros Hx. unfold swap_perm, swap_source. by rewrite decide_True. Qed.

Lemma swap_perm_high (w : nat) (key : Z) (y x : nat) :
  (x < w / 2)%nat ->
  swap_perm w key y (w - 1 - x) = if swaps key x y then x else (w - 1 - x)%nat.
Proof.
  intros Hx. unfold swap_perm, swap_source. pose proof (half_facts w).
  rewrite decide_False by lia. rewrite decide_True by lia.
  replace (w - 1 - (w - 1 - x))%nat with x by lia.
  by destruct (swaps key x y).
Qed.

Lemma wf_scenario : wf_image scenario.
Proof. split; [reflexivity | repeat constructor]. Qed.

Lemma pix_row (img : Image) (x y : nat) (r : list pixel) :
  rows img !! y = Some r -> pix img x y = r !! x.
Proof. intros Hr. unfold pix. by rewrite Hr. Qed.

(** A buffer whose pixels are those of [img], each moved along [swap_perm]
    within its row and sent through [g], has as many rows as [img], and
    each of its rows is a rearrangement of the same row of [img] under
    [g]. *)
Lemma rows_permutation (img img' : Image) (g : pixel -> pixel) (key : Z) :
  wf_image img -> same_shape img img' ->
  (forall x y,
     pix img' x y = g <$> pix img (swap_perm (width img) key y x) y) ->
  length (rows img') = length (rows img) /\
  (forall y r, rows img !! y = Some r ->
     exists r', rows img' !! y = Some r' /\ r' ≡ₚ (g <$> r)) /\
  (forall y r', rows img' !! y = Some r' ->
     exists r, rows img !! y = Some r /\ r' ≡ₚ (g <$> r)).
Proof.
  intros [Hlen Hall] (Hw & Hh & Hlen' & Hall') Hp.
  assert (length (rows img') = length (rows img)) as Hrows by congruence.
  assert (forall y r r', rows img !! y = Some r -> rows img' !! y = Some r' ->
            r' ≡ₚ (g <$> r)) as Hperm.
  { intros y r r' Hr Hr'. apply Permutation_inj. split.
    - rewrite length_fmap. rewrite Forall_lookup in Hall, Hall'.
      rewrite (Hall _ _ Hr), (Hall' _ _ Hr'). done.
    - exists (swap_perm (width img) key y). split.
      + intros a b Hab.
        apply (f_equal (swap_perm (width img) key y)) in Hab.
        by rewrite !swap_perm_involutive in Hab.
      + intros i. rewrite list_lookup_fmap.
        rewrite <- (pix_row img' i y r' Hr'), <- (pix_row img _ y r Hr).
        apply Hp. }
  split; [done |]. split.
  - intros y r Hr.
    destruct (lookup_lt_is_Some_2 (rows img') y) as [r' Hr'].
    { apply lookup_lt_Some in Hr. lia. }
    exists r'. split; [done | by eapply Hperm].
  - intros y r' Hr'.
    destruct (lookup_lt_is_Some_2 (rows img) y) as [r Hr].
    { apply lookup_lt_Some in Hr'. lia. }
    exists r. split; [done | by eapply Hperm].
Qed.

(** ** Claims about the transform *)

(** C1: applying the transform twice with the same key to a well-formed
    buffer (any width and height, zero included) succeeds both times and
    gives back the very same buffer. *)
Theorem transform_involution (img : Image) (key : Z) :
  wf_image img ->
  exists img1, transform img key = Ok img1 /\ transform img1 key = Ok img.
Proof.
  intros Hwf.
  destruct (transform_spec img key Hwf) as (img1 & H1 & Hs1 & Hp1).
  destruct (transform_spec img1 key) as (img2 & H2 & Hs2 & Hp2).
  { apply Hs1. }
  exists img1. split; [done |]. rewrite H2. f_equal.
  destruct Hs1 as (Hw1 & Hh1 & Hwf1), Hs2 as (Hw2 & Hh2 & Hwf2).
  apply image_ext; [split; [| split]; congruence | done |].
  intros x y. rewrite Hp2, Hp1, Hw1, swap_perm_involutive.
  destruct (pix img x y) as [p|]; [|done]. simpl.
  by rewrite xor_pixel_twice.
Qed.

Lemma transform_involution_witness :
  wf_image scenario /\
  exists img1, transform scenario 5 = Ok img1 /\ transform img1 5 = Ok scenario.
Proof.
  split; [exact wf_scenario | apply (transform_involution scenario 5)].
  exact wf_scenario.
Defined.

(** C2: the key counts only through its residue modulo 256; in particular
    adding or subtracting 256 changes nothing, for negative keys too. *)
Theorem transform_key_mod_256 (img : Image) (key : Z) :
  transform img (key + 256) = transform img key /\
  transform img (key - 256) = transform img key /\
  transform img (key mod 256) = transform img key.
Proof.
  unfold transform.
  replace ((key + 256) mod 256) with (key mod 256)
    by (symmetry; apply (Z_mod_plus_full key 1 256)).
  replace ((key - 256) mod 256) with (key mod 256)
    by (symmetry; apply (Z_mod_plus_full key (-1) 256)).
  by rewrite Z.mod_mod.
Qed.

(** C3: with key 0 the transform succeeds and keeps the shape; no colour
    changes: every row of the result holds the pixels of the same row of
    the input, rearranged; the pixels at [x] and [W - 1 - x] of row [y] are
    exchanged exactly when [x < W / 2] and [(x + y) mod 2 = 0]; and the
    middle column of an odd width, the width 1 included, stays. *)
Theorem transform_identity_key (img : Image) :
  wf_image img ->
  exists img', transform img 0 = Ok img' /\
    width img' = width img /\ height img' = height img /\ wf_image img' /\
    (forall y r', rows img' !! y = Some r' ->
       exists r, rows img !! y = Some r /\ r' ≡ₚ r) /\
    (forall x y, (x < width img / 2)%nat ->
       let x2 := (width img - 1 - x)%nat in
       if (Z.of_nat x + Z.of_nat y) mod 2 =? 0
       then pix img' x y = pix img x2 y /\ pix img' x2 y = pix img x y
       else pix img' x y = pix img x y /\ pix img' x2 y = pix img x2 y) /\
    (forall y, Nat.odd (width img) = true ->
       pix img' (width img / 2) y = pix img (width img / 2) y).
Proof.
  intros Hwf. destruct (transform_spec img 0 Hwf) as (img' & H1 & Hs & Hp).
  exists img'. split; [done |].
  pose proof Hs as (Hw & Hh & Hwf'). do 3 (split; [done |]).
  assert (forall c y, xor_pixel (0 mod 256) <$> pix img c y = pix img c y)
    as Hid.
  { intros c y. rewrite Z.mod_0_l by done.
    destruct (pix img c y); [|done]. simpl. by rewrite xor_pixel_0. }
  split; [| split].
  - intros y r' Hr'.
    destruct (rows_permutation img img' (xor_pixel (0 mod 256)) (0 mod 256)
                Hwf Hs Hp) as (_ & _ & Hrows).
    destruct (Hrows y r' Hr') as (r & Hr & Hperm).
    exists r. split; [done |]. rewrite Hperm.
    rewrite Z.mod_0_l by done.
    assert (forall l : list pixel, xor_pixel 0 <$> l = l) as Hmap.
    { induction l as [|p l IH]; [done |].
      by rewrite fmap_cons, IH, xor_pixel_0. }
    by rewrite Hmap.
  - intros x y Hx x2. rewrite !Hp, !Hid. subst x2.
    rewrite swap_perm_low, swap_perm_high by done.
    unfold swaps. rewrite Z.mod_0_l, Z.add_0_r by done.
    by destruct ((Z.of_nat x + Z.of_nat y) mod 2 =? 0).
  - intros y Hodd. by rewrite Hp, Hid, swap_perm_middle.
Qed.

Lemma transform_identity_key_witness :
  wf_image three_wide /\
  exists img', transform three_wide 0 = Ok img' /\
    width img' = width three_wide /\ height img' = height three_wide /\
    wf_image img' /\
    (forall y r', rows img' !! y = Some r' ->
       exists r, rows three_wide !! y = Some r /\ r' ≡ₚ r) /\
    (forall x y, (x < width three_wide / 2)%nat ->
       let x2 := (width three_wide - 1 - x)%nat in
       if (Z.of_nat x + Z.of_nat y) mod 2 =? 0
       then pix img' x y = pix three_wide x2 y /\
            pix img' x2 y = pix three_wide x y
       else pix img' x y = pix three_wide x y /\
            pix img' x2 y = pix three_wide x2 y) /\
    (forall y, Nat.odd (width three_wide) = true ->
       pix img' (width three_wide / 2) y
       = pix three_wide (width three_wide / 2) y).
Proof.
  assert (wf_image three_wide) as Hwf
    by (split; [reflexivity | repeat constructor]).
  split; [exact Hwf | apply (transform_identity_key three_wide); exact Hwf].
Defined.

(** C4: in a buffer of odd width, Stage 2 leaves the middle column of every
    row where it is, and after the whole transform the middle pixel holds
    its original colour XORed with the key reduced modulo 256. *)
Theorem odd_width_midpoint (img : Image) (key : Z) (y : nat) :
  wf_image img -> Nat.odd (width img) = true -> (y < height img)%nat ->
  let m := (width img / 2)%nat in
  (exists img2, swap_stage (key mod 256) img = Ok img2 /\
     pix img2 m y = pix img m y) /\
  exists p img', pix img m y = Some p /\ transform img key = Ok img' /\
    pix img' m y = Some (xor_pixel (key mod 256) p).
Proof.
  intros Hwf Hodd Hy m. split.
  - destruct (swap_stage_spec (key mod 256) img Hwf) as (img2 & H2 & _ & Hp).
    exists img2. split; [done |]. by rewrite Hp, swap_perm_middle.
  - destruct (pix_in_range img m y) as [p Hp]; [done | | done |].
    { pose proof (half_facts (width img)). subst m.
      destruct (width img); [done | lia]. }
    destruct (transform_spec img key Hwf) as (img' & H1 & _ & Hp').
    exists p, img'. split; [done |]. split; [done |].
    rewrite Hp'. subst m. rewrite swap_perm_middle by done. by rewrite Hp.
Qed.

Lemma odd_width_midpoint_witness :
  wf_image three_wide /\ Nat.odd (width three_wide) = true /\
  (1 < height three_wide)%nat /\
  let m := (width three_wide / 2)%nat in
  (exists img2, swap_stage (7 mod 256) three_wide = Ok img2 /\
     pix img2 m 1%nat = pix three_wide m 1%nat) /\
  exists p img', pix three_wide m 1%nat = Some p /\
    transform three_wide 7 = Ok img' /\
    pix img' m 1%nat = Some (xor_pixel (7 mod 256) p).
Proof.
  assert (wf_image three_wide) as Hwf
    by (split; [reflexivity | repeat constructor]).
  split; [exact Hwf |]. split; [reflexivity |]. split; [simpl; lia |].
  apply (odd_width_midpoint three_wide 7 1); [exact Hwf | reflexivity |].
  simpl; lia.
Defined.

Lemma pixel_count_wf (img : Image) :
  wf_image img -> pixel_count img = (height img * width img)%nat.
Proof.
  intros [Hh Hw]. unfold pixel_count. rewrite <- Hh.
  generalize dependent (rows img). intros rs _ Hw.
  induction Hw as [|r rs Hr _ IH]; [done |].
  simpl. by rewrite length_app, IH, Hr.
Qed.

(** C5: the transform of a well-formed buffer succeeds, and its result has
    the same width, the same height and the same number of pixels, laid out
    as rows of that width. *)
Theorem transform_shape (img : Image) (key : Z) :
  wf_image img ->
  exists img', transform img key = Ok img' /\
    width img' = width img /\ height img' = height img /\
    wf_image img' /\ pixel_count img' = pixel_count img.
Proof.
  intros Hwf.
  destruct (transform_spec img key Hwf) as (img' & H1 & (Hw & Hh & Hwf') & _).
  exists img'. repeat (split; [done |]).
  rewrite !pixel_count_wf by done. congruence.
Qed.

Lemma transform_shape_witness :
  wf_image three_wide /\
  exists img', transform three_wide 300 = Ok img' /\
    width img' = width three_wide /\ height img' = height three_wide /\
    wf_image img' /\ pixel_count img' = pixel_count three_wide.
Proof.
  assert (wf_image three_wide) as Hwf
    by (split; [reflexivity | repeat constructor]).
  split; [exact Hwf | apply (transform_shape three_wide 300); exact Hwf].
Defined.

(** C6: the 2x1 scenario under key 5: Stage 1 gives [(15,17,27),
    (45,55,57)], the parity test of Stage 2 fails so nothing is exchanged,
    and a second run gives the original back. *)
Theorem scenario_key_5 :
  xor_stage (5 mod 256) scenario = Ok scenario_out /\
  swaps (5 mod 256) 0 0 = false /\
  transform scenario 5 = Ok scenario_out /\
  transform scenario_out 5 = Ok scenario.
Proof. repeat split; vm_compute; reflexivity. Qed.

(** C7: which pixels Stage 2 exchanges is fixed by the coordinates, the
    width and the key modulo 256: two buffers of the same dimensions have
    their pixels moved along the same column permutation [swap_perm], by
    Stage 2 alone and by the whole transform. *)
Theorem swap_data_independent (a b : Image) (key : Z) :
  wf_image a -> wf_image b ->
  width a = width b -> height a = height b ->
  let sigma := swap_perm (width a) (key mod 256) in
  (exists a2 b2,
     swap_stage (key mod 256) a = Ok a2 /\
     swap_stage (key mod 256) b = Ok b2 /\
     forall x y, pix a2 x y = pix a (sigma y x) y /\
                 pix b2 x y = pix b (sigma y x) y) /\
  (exists a' b',
     transform a key = Ok a' /\ transform b key = Ok b' /\
     forall x y,
       pix a' x y = xor_pixel (key mod 256) <$> pix a (sigma y x) y /\
       pix b' x y = xor_pixel (key mod 256) <$> pix b (sigma y x) y).
Proof.
  intros Ha Hb Hw Hh sigma. subst sigma. split.
  - destruct (swap_stage_spec (key mod 256) a Ha) as (a2 & Ha2 & _ & Hpa).
    destruct (swap_stage_spec (key mod 256) b Hb) as (b2 & Hb2 & _ & Hpb).
    exists a2, b2. do 2 (split; [done |]). intros x y.
    by rewrite Hpa, Hpb, Hw.
  - destruct (transform_spec a key Ha) as (a' & Ha' & _ & Hpa).
    destruct (transform_spec b key Hb) as (b' & Hb' & _ & Hpb).
    exists a', b'. do 2 (split; [done |]). intros x y.
    by rewrite Hpa, Hpb, Hw.
Qed.

Lemma swap_data_independent_witness :
  wf_image scenario /\ wf_image scenario_out /\
  width scenario = width scenario_out /\
  height scenario = height scenario_out /\
  let sigma := swap_perm (width scenario) (6 mod 256) in
  (exists a2 b2,
     swap_stage (6 mod 256) scenario = Ok a2 /\
     swap_stage (6 mod 256) scenario_out = Ok b2 /\
     forall x y, pix a2 x y = pix scenario (sigma y x) y /\
                 pix b2 x y = pix scenario_out (sigma y x) y) /\
  (exists a' b',
     transform scenario 6 = Ok a' /\ transform scenario_out 6 = Ok b' /\
     forall x y,
       pix a' x y = xor_pixel (6 mod 256) <$> pix scenario (sigma y x) y /\
       pix b' x y = xor_pixel (6 mod 256) <$> pix scenario_out (sigma y x) y).
Proof.
  assert (wf_image scenario_out) as Hwf
    by (split; [reflexivity | repeat constructor]).
  split; [exact wf_scenario |]. split; [exact Hwf |].
  split; [reflexivity |]. split; [reflexivity |].
  apply (swap_data_independent scenario scenario_out 6);
    [exact wf_scenario | exact Hwf | reflexivity | reflexivity].
Defined.

(** ** Channel range *)

Lemma lxor_byte (a b : Z) :
  channel_ok a -> channel_ok b -> channel_ok (Z.lxor a b).
Proof.
  unfold channel_ok. intros Ha Hb.
  assert (0 <= Z.lxor a b) as Hnn by (apply Z.lxor_nonneg; lia).
  split; [done |].
  destruct (Z.eq_dec (Z.lxor a b) 0) as [->|Hne]; [lia |].
  change 256 with (2 ^ 8). apply Z.log2_lt_pow2; [lia |].
  pose proof (Z.log2_lxor a b ltac:(lia) ltac:(lia)) as Hlog.
  assert (forall c, 0 <= c < 256 -> Z.log2 c < 8) as Hbyte.
  { intros c Hc. destruct (Z.eq_dec c 0) as [->|]; [done |].
    apply Z.log2_lt_pow2; [lia |]. change (2 ^ 8) with 256. lia. }
  pose proof (Hbyte a Ha). pose proof (Hbyte b Hb). lia.
Qed.

Lemma xor_pixel_ok (key : Z) (p : pixel) :
  channel_ok key -> pixel_ok p -> pixel_ok (xor_pixel key p).
Proof.
  destruct p as [[r g] b]. unfold pixel_ok. simpl.
  intros Hk (Hr & Hg & Hb). repeat split; by apply lxor_byte.
Qed.

Lemma rgb_image_pix (img : Image) :
  rgb_image img <-> forall x y p, pix img x y = Some p -> pixel_ok p.
Proof.
  unfold rgb_image, pix. rewrite Forall_lookup. split.
  - intros H x y p Hp. destruct (rows img !! y) as [r|] eqn:Hr; [|done].
    simpl in Hp. specialize (H y r Hr). rewrite Forall_lookup in H. eauto.
  - intros H y r Hr. rewrite Forall_lookup. intros x p Hp.
    apply (H x y). by rewrite Hr.
Qed.

(** C10: if every channel of a well-formed buffer lies in [0, 255], so does
    every channel of the transformed buffer, whatever the key. *)
Theorem transform_channel_range (img : Image) (key : Z) :
  wf_image img -> rgb_image img ->
  exists img', transform img key = Ok img' /\ rgb_image img'.
Proof.
  intros Hwf Hrgb.
  destruct (transform_spec img key Hwf) as (img' & H1 & _ & Hp).
  exists img'. split; [done |]. apply rgb_image_pix. intros x y p.
  rewrite Hp. rewrite rgb_image_pix in Hrgb.
  destruct (pix img _ y) as [q|] eqn:Hq; [|done]. intros [= <-].
  apply xor_pixel_ok; [| by eapply Hrgb].
  unfold channel_ok. apply Z.mod_pos_bound. lia.
Qed.

Lemma transform_channel_range_witness :
  wf_image scenario /\ rgb_image scenario /\
  exists img', transform scenario (-3) = Ok img' /\ rgb_image img'.
Proof.
  assert (rgb_image scenario) as Hrgb.
  { repeat constructor; simpl; lia. }
  split; [exact wf_scenario |]. split; [exact Hrgb |].
  apply (transform_channel_range scenario (-3)); [exact wf_scenario | exact Hrgb].
Defined.

(** ** Strings and paths *)

Lemma rfind_range (c : ascii) (s : str) : -1 <= rfind c s < Z.of_nat (length s).
Proof.
  induction s as [|a s IH]; simpl; [lia |].
  destruct (Z.leb_spec 0 (rfind c s)); [lia |].
  destruct (Ascii.eqb a c); lia.
Qed.

Lemma rfind_app (c : ascii) (s1 s2 : str) :
  rfind c (s1 ++ s2) =
    if 0 <=? rfind c s2 then Z.of_nat (length s1) + rfind c s2
    else rfind c s1.
Proof.
  pose proof (rfind_range c s2) as Hr2.
  induction s1 as [|a s1 IH]; simpl.
  - destruct (Z.leb_spec 0 (rfind c s2)); lia.
  - rewrite IH. destruct (Z.leb_spec 0 (rfind c s2)).
    + destruct (Z.leb_spec 0 (Z.of_nat (length s1) + rfind c s2)); lia.
    + done.
Qed.

Lemma rfind_absent (c : ascii) (s : str) :
  Forall (fun a => a <> c) s -> rfind c s = -1.
Proof.
  induction 1 as [|a s Ha _ IH]; simpl; [done |].
  rewrite IH. simpl. by apply Ascii.eqb_neq in Ha as ->.
Qed.

Lemma rfind_head (c : ascii) (s : str) :
  rfind c s = 0 -> exists s', s = c :: s'.
Proof.
  destruct s as [|a s]; simpl; [done |].
  pose proof (rfind_range c s).
  destruct (Z.leb_spec 0 (rfind c s)); [lia |].
  destruct (Ascii.eqb_spec a c) as [->|]; [eauto | done].
Qed.

Lemma skip_leading_dots_true (p : str) (e : ascii) (n i : nat) :
  skip_leading_dots p e i n = true <->
  exists j, (i <= j < i + n)%nat /\ p !! j <> Some e.
Proof.
  revert i. induction n as [|n IH]; intros i; simpl.
  - split; [done | intros (j & ? & _); lia].
  - case_decide as Hi.
    + split; [intros _; exists i; split; [lia | done] | done].
    + rewrite IH. split; intros (j & Hj & Hne).
      * exists j. split; [lia | done].
      * exists j. split; [| done].
        destruct (decide (j = i)) as [->|]; [done | lia].
Qed.

Lemma skip_leading_dots_ext (p q : str) (e : ascii) (n i : nat) :
  (forall j, (i <= j < i + n)%nat -> p !! j = q !! j) ->
  skip_leading_dots p e i n = skip_leading_dots q e i n.
Proof.
  revert i. induction n as [|n IH]; intros i Hpq; simpl; [done |].
  rewrite (Hpq i) by lia. case_decide; [done |].
  apply IH. intros j Hj. apply Hpq. lia.
Qed.

(** The two parts that [_splitext] returns make up the path. *)
Lemma splitext_concat (p : str) (sep : ascii) (altsep : option ascii)
    (extsep : ascii) :
  (_splitext p sep altsep extsep).1 ++ (_splitext p sep altsep extsep).2 = p.
Proof.
  unfold _splitext.
  destruct (_ && _); simpl; [apply take_drop | apply app_nil_r].
Qed.

Lemma rfind_insert (c : ascii) (base suffix ext : str) :
  Forall (fun a => a <> c) suffix -> rfind c ext = -1 ->
  rfind c (base ++ suffix ++ ext) = rfind c (base ++ ext).
Proof.
  intros Hs He. rewrite !rfind_app, He, (rfind_absent c suffix Hs). done.
Qed.

Lemma rfind_not_in_tail (c : ascii) (base ext : str) :
  rfind c (base ++ ext) < Z.of_nat (length base) -> rfind c ext = -1.
Proof.
  rewrite rfind_app. pose proof (rfind_range c ext).
  destruct (Z.leb_spec 0 (rfind c ext)); lia.
Qed.

Lemma rfind_at_split (c : ascii) (base ext : str) :
  rfind c (base ++ ext) = Z.of_nat (length base) -> rfind c ext = 0.
Proof.
  rewrite rfind_app. pose proof (rfind_range c base).
  destruct (Z.leb_spec 0 (rfind c ext)); lia.
Qed.

(** Putting a suffix without separators and dots before the extension
    changes neither what [_splitext] takes as the extension nor where it
    cuts. *)
Lemma splitext_suffix (p : str) (sep : ascii) (altsep : option ascii)
    (extsep : ascii) (suffix : str) :
  Forall (fun c => c <> sep /\ Some c <> altsep /\ c <> extsep) suffix ->
  let base := (_splitext p sep altsep extsep).1 in
  let ext := (_splitext p sep altsep extsep).2 in
  _splitext (base ++ suffix ++ ext) sep altsep extsep = (base ++ suffix, ext).
Proof.
  intros Hsuffix base ext.
  assert (Forall (fun a => a <> sep) suffix) as Hsep
    by (eapply Forall_impl; [exact Hsuffix | by intros c (? & ? & ?)]).
  assert (Forall (fun a => a <> extsep) suffix) as Hdot
    by (eapply Forall_impl; [exact Hsuffix | by intros c (? & ? & ?)]).
  assert (forall a, altsep = Some a -> Forall (fun c => c <> a) suffix) as Halt.
  { intros a ->. eapply Forall_impl; [exact Hsuffix |]. simpl.
    intros c (_ & Hc & _). congruence. }
  pose proof (splitext_concat p sep altsep extsep) as Hcat.
  fold base ext in Hcat.
  set (q := base ++ suffix ++ ext).
  set (si := fun s : str =>
    match altsep with
    | Some a => Z.max (rfind sep s) (rfind a s)
    | None => rfind sep s
    end).
  assert (-1 <= si p) as Hsi.
  { subst si. simpl. pose proof (rfind_range sep p).
    destruct altsep; lia. }
  (* the separators keep their last positions when none lies in [ext] *)
  assert (rfind sep ext = -1 ->
          (forall a, altsep = Some a -> rfind a ext = -1) -> si q = si p)
    as Hsame.
  { intros H1 H2. subst si q. simpl.
    rewrite (rfind_insert sep), Hcat by done. destruct altsep as [a|]; [|done].
    rewrite (rfind_insert a), Hcat; [done | by apply Halt | by apply H2]. }
  unfold _splitext in base, ext. fold (si p) in base, ext.
  unfold _splitext. fold (si q).
  destruct (Z.gtb_spec (rfind extsep p) (si p)) as [Hgt|Hle]; simpl in *.
  - destruct (skip_leading_dots p extsep _ _) eqn:Hskip; simpl in *.
    + (* the path has an extension *)
      set (d := rfind extsep p) in *.
      pose proof (rfind_range extsep p) as Hd. fold d in Hd.
      assert (length base = Z.to_nat d) as Hlen
        by (subst base; rewrite length_take; lia).
      assert (rfind extsep ext = 0) as Hext.
      { apply (rfind_at_split extsep base). rewrite Hcat. fold d. lia. }
      assert (forall c, rfind c p <= si p -> rfind c ext = -1) as Hnone.
      { intros c Hc. apply (rfind_not_in_tail c base). rewrite Hcat. lia. }
      assert (si q = si p) as Hsiq.
      { apply Hsame.
        - apply Hnone. subst si. simpl. destruct altsep; lia.
        - intros a Ha. apply Hnone. subst si. simpl. rewrite Ha. lia. }
      assert (rfind extsep q = d + Z.of_nat (length suffix)) as Hdq.
      { subst q. rewrite !rfind_app, Hext. simpl.
        destruct (Z.leb_spec 0 (Z.of_nat (length suffix) + 0)); lia. }
      rewrite Hsiq, Hdq.
      destruct (Z.gtb_spec (d + Z.of_nat (length suffix)) (si p)); [|lia].
      simpl.
      assert (skip_leading_dots q extsep (Z.to_nat (si p + 1))
                (Z.to_nat (d + Z.of_nat (length suffix) - (si p + 1))) = true)
        as ->.
      { apply skip_leading_dots_true. apply skip_leading_dots_true in Hskip.
        destruct Hskip as (j & Hj & Hne). exists j. split; [lia |].
        subst q. rewrite lookup_app_l by lia.
        subst base. rewrite lookup_take_lt by lia. done. }
      replace (Z.to_nat (d + Z.of_nat (length suffix)))
        with (length (base ++ suffix)) by (rewrite length_app; lia).
      subst q. rewrite app_assoc.
      by rewrite take_app_length, drop_app_length.
    + (* only leading dots before the last dot: no extension *)
      assert (si q = si p) as Hsiq by (apply Hsame; done).
      assert (rfind extsep q = rfind extsep p) as Hdq.
      { subst q. rewrite (rfind_insert extsep), Hcat; done. }
      rewrite Hsiq, Hdq.
      pose proof (rfind_range extsep p) as Hd.
      rewrite (skip_leading_dots_ext q p).
      * rewrite Hskip, andb_false_r. subst q ext. by rewrite !app_nil_r.
      * intros j Hj. subst q base. rewrite lookup_app_l by lia. done.
  - (* no dot after the last separator: no extension *)
    assert (si q = si p) as Hsiq by (apply Hsame; done).
    assert (rfind extsep q = rfind extsep p) as Hdq.
    { subst q. rewrite (rfind_insert extsep), Hcat; done. }
    rewrite Hsiq, Hdq.
    destruct (Z.gtb_spec (rfind extsep p) (si p)); [lia |].
    simpl. subst q ext. by rewrite !app_nil_r.
Qed.

(** ** The GUI callbacks *)

Lemma validate_inputs_accepted (fs : gmap str file)
    (image_path key_value path : str) (key : Z) :
  validate_inputs fs image_path key_value = Ok (Accepted path key) ->
  path = strip image_path /\ isfile fs path = true /\
  int (strip key_value) = Ok key.
Proof.
  unfold validate_inputs.
  case_bool_decide; [done |].
  destruct (isfile fs (strip image_path)) eqn:Hfile; [|done]. simpl.
  case_bool_decide; [done |].
  destruct (isdigit _); [|done]. simpl.
  destruct (int (strip key_value)) as [k|e]; [|done]. simpl.
  by intros [= <- <-].
Qed.

(** The only exception that leaves [validate_inputs] is the [ValueError] of
    [int], on a key that went through the digit check. *)
Lemma validate_inputs_raises (fs : gmap str file) (image_path key_value : str)
    (e : exn) :
  validate_inputs fs image_path key_value = Raise e ->
  isdigit (lstrip_minus (strip key_value)) = true /\
  int (strip key_value) = Raise e.
Proof.
  unfold validate_inputs.
  case_bool_decide; [done |].
  destruct (isfile fs (strip image_path)); [|done]. simpl.
  case_bool_decide; [done |].
  destruct (isdigit _); [|done]. simpl.
  destruct (int (strip key_value)) as [k|e']; [done |]. simpl.
  by intros [= <-].
Qed.

Lemma suffix_length_ne (base suffix ext : str) :
  suffix <> [] -> base ++ suffix ++ ext <> base ++ ext.
Proof.
  intros Hne Heq. apply (f_equal length) in Heq.
  rewrite !length_app in Heq. destruct suffix; [done | simpl in Heq; lia].
Qed.

Lemma suffix_chars_ok (sep : ascii) (altsep : option ascii) (suffix : str) :
  path_separators sep altsep ->
  forallb (fun c => negb (Ascii.eqb c "/" || Ascii.eqb c "\" || Ascii.eqb c "."))
    suffix = true ->
  Forall (fun c => c <> sep /\ Some c <> altsep /\ c <> "."%char) suffix.
Proof.
  intros Hsep Hall. apply Forall_forall. intros c Hc.
  rewrite forallb_forall in Hall. apply list_elem_of_In in Hc.
  specialize (Hall c Hc). rewrite negb_true_iff, !orb_false_iff in Hall.
  destruct Hall as [[H1 H2] H3].
  apply Ascii.eqb_neq in H1, H2, H3.
  destruct Hsep as [[-> ->] | [-> ->]]; repeat split; congruence.
Qed.

Section Actions.
Variable sep : ascii.
Variable altsep : option ascii.
Variable save : Image -> str -> result file.
Variable fs : gmap str file.

Lemma transform_image_writes (input_path output_path : str) (key : Z)
    (fs' : gmap str file) :
  transform_image save fs input_path output_path key = Ok fs' ->
  exists img img' f,
    image_open fs input_path = Ok img /\ transform img key = Ok img' /\
    save img' output_path = Ok f /\ fs' = <[output_path := f]> fs.
Proof.
  unfold transform_image.
  destruct (image_open fs input_path) as [img|] eqn:Ho; [|done]. simpl.
  destruct (transform img key) as [img'|] eqn:Ht; [|done]. simpl.
  destruct (save img' output_path) as [f|] eqn:Hs; [|done]. simpl.
  intros [= <-]. by exists img, img', f.
Qed.

Ltac action_cases Hrun :=
  match type of Hrun with
  | context [validate_inputs ?fs ?ip ?kv] =>
      let Hv := fresh "Hv" in
      destruct (validate_inputs fs ip kv) as [[dlg|p0 k0]|e0] eqn:Hv;
      simpl in Hrun; [| apply validate_inputs_accepted in Hv as (-> & _ & _) |]
  end.

Lemma encrypt_action_writes (image_path key_value : str)
    (fs' : gmap str file) (d : option dialog) :
  encrypt_action sep altsep save fs image_path key_value = Ok (fs', d) ->
  let path := strip image_path in
  fs' = fs \/
  exists f, fs' = <[(splitext sep altsep path).1 ++ lit "_encrypted"
                     ++ (splitext sep altsep path).2 := f]> fs.
Proof.
  intros Hrun path. unfold encrypt_action in Hrun. action_cases Hrun.
  - left. congruence.
  - fold path in Hrun. destruct (splitext sep altsep path) as [base ext].
    destruct (transform_image _ _ _ _ _) as [fs1|] eqn:Ht.
    + apply transform_image_writes in Ht as (_ & _ & f & _ & _ & _ & ->).
      right. exists f. simpl. congruence.
    + left. congruence.
  - done.
Qed.

Lemma decrypt_action_writes (image_path key_value : str)
    (fs' : gmap str file) (d : option dialog) :
  decrypt_action sep altsep save fs image_path key_value = Ok (fs', d) ->
  let path := strip image_path in
  fs' = fs \/
  exists f, fs' = <[(splitext sep altsep path).1 ++ lit "_decrypted"
                     ++ (splitext sep altsep path).2 := f]> fs.
Proof.
  intros Hrun path. unfold decrypt_action in Hrun. action_cases Hrun.
  - left. congruence.
  - fold path in Hrun. destruct (splitext sep altsep path) as [base ext].
    destruct (transform_image _ _ _ _ _) as [fs1|] eqn:Ht.
    + apply transform_image_writes in Ht as (_ & _ & f & _ & _ & _ & ->).
      right. exists f. simpl. congruence.
    + left. congruence.
  - done.
Qed.

(** C9: with [path] the stripped content of the path field and
    [(base, ext)] what [os.path.splitext] makes of it, the encrypt action
    writes [base + "_encrypted" + ext] and the decrypt action
    [base + "_decrypted" + ext], and nothing else; either output path
    differs from [path], has [ext] as its extension again, and the file at
    [path] is what it was. *)
Theorem output_path_derivation (image_path key_value : str) :
  path_separators sep altsep ->
  let path := strip image_path in
  let base := (splitext sep altsep path).1 in
  let ext := (splitext sep altsep path).2 in
  let encrypted := base ++ lit "_encrypted" ++ ext in
  let decrypted := base ++ lit "_decrypted" ++ ext in
  base ++ ext = path /\
  encrypted <> path /\ decrypted <> path /\
  splitext sep altsep encrypted = (base ++ lit "_encrypted", ext) /\
  splitext sep altsep decrypted = (base ++ lit "_decrypted", ext) /\
  (forall fs' d,
     encrypt_action sep altsep save fs image_path key_value = Ok (fs', d) ->
     (fs' = fs \/ exists f, fs' = <[encrypted := f]> fs) /\
     fs' !! path = fs !! path) /\
  (forall fs' d,
     decrypt_action sep altsep save fs image_path key_value = Ok (fs', d) ->
     (fs' = fs \/ exists f, fs' = <[decrypted := f]> fs) /\
     fs' !! path = fs !! path) /\
  (forall key fs',
     validate_inputs fs image_path key_value = Ok (Accepted path key) ->
     (transform_image save fs path encrypted key = Ok fs' ->
      exists d, encrypt_action sep altsep save fs image_path key_value
                = Ok (fs', d) /\ fs' !! encrypted <> None) /\
     (transform_image save fs path decrypted key = Ok fs' ->
      exists d, decrypt_action sep altsep save fs image_path key_value
                = Ok (fs', d) /\ fs' !! decrypted <> None)).
Proof.
  intros Hsep path base ext encrypted decrypted.
  assert (base ++ ext = path) as Hcat by apply splitext_concat.
  assert (encrypted <> path) as Henc
    by (rewrite <- Hcat; by apply suffix_length_ne).
  assert (decrypted <> path) as Hdec
    by (rewrite <- Hcat; by apply suffix_length_ne).
  split; [done |]. split; [done |]. split; [done |].
  split; [| split; [| split; [| split]]].
  - apply splitext_suffix. by apply suffix_chars_ok.
  - apply splitext_suffix. by apply suffix_chars_ok.
  - intros fs' d Hrun.
    destruct (encrypt_action_writes _ _ _ _ Hrun) as [->|[f ->]].
    + split; [by left | done].
    + split; [right; by exists f | by apply lookup_insert_ne].
  - intros fs' d Hrun.
    destruct (decrypt_action_writes _ _ _ _ Hrun) as [->|[f ->]].
    + split; [by left | done].
    + split; [right; by exists f | by apply lookup_insert_ne].
  - intros key fs' Hv. split; intros Ht.
    + unfold encrypt_action. rewrite Hv. simpl. fold path.
      destruct (splitext sep altsep path) as [b e] eqn:Hsp.
      subst encrypted base ext. simpl in *. rewrite Ht.
      eexists. split; [done |].
      apply transform_image_writes in Ht as (_ & _ & f & _ & _ & _ & ->).
      by rewrite lookup_insert_eq.
    + unfold decrypt_action. rewrite Hv. simpl. fold path.
      destruct (splitext sep altsep path) as [b e] eqn:Hsp.
      subst decrypted base ext. simpl in *. rewrite Ht.
      eexists. split; [done |].
      apply transform_image_writes in Ht as (_ & _ & f & _ & _ & _ & ->).
      by rewrite lookup_insert_eq.
Qed.
End Actions.

Lemma output_path_derivation_witness :
  path_separators "/" None /\
  let path := strip (lit " photo.png ") in
  let base := (splitext "/" None path).1 in
  let ext := (splitext "/" None path).2 in
  let encrypted := base ++ lit "_encrypted" ++ ext in
  let decrypted := base ++ lit "_decrypted" ++ ext in
  base ++ ext = path /\
  encrypted <> path /\ decrypted <> path /\
  splitext "/" None encrypted = (base ++ lit "_encrypted", ext) /\
  splitext "/" None decrypted = (base ++ lit "_decrypted", ext) /\
  (forall fs' d,
     encrypt_action "/" None save_exact photo_folder (lit " photo.png ")
       (lit "5") = Ok (fs', d) ->
     (fs' = photo_folder \/ exists f, fs' = <[encrypted := f]> photo_folder) /\
     fs' !! path = photo_folder !! path) /\
  (forall fs' d,
     decrypt_action "/" None save_exact photo_folder (lit " photo.png ")
       (lit "5") = Ok (fs', d) ->
     (fs' = photo_folder \/ exists f, fs' = <[decrypted := f]> photo_folder) /\
     fs' !! path = photo_folder !! path) /\
  (forall key fs',
     validate_inputs photo_folder (lit " photo.png ") (lit "5")
       = Ok (Accepted path key) ->
     (transform_image save_exact photo_folder path encrypted key = Ok fs' ->
      exists d, encrypt_action "/" None save_exact photo_folder
                  (lit " photo.png ") (lit "5") = Ok (fs', d) /\
                fs' !! encrypted <> None) /\
     (transform_image save_exact photo_folder path decrypted key = Ok fs' ->
      exists d, decrypt_action "/" None save_exact photo_folder
                  (lit " photo.png ") (lit "5") = Ok (fs', d) /\
                fs' !! decrypted <> None)).
Proof.
  split; [left; split; reflexivity |].
  apply (output_path_derivation "/" None save_exact photo_folder
           (lit " photo.png ") (lit "5")).
  left; split; reflexivity.
Defined.

(** The encrypt action on the folder with one image: [photo.png] stays and
    [photo_encrypted.png] appears, holding the transformed buffer. *)
Example encrypt_action_photo :
  encrypt_action "/" None save_exact photo_folder (lit " photo.png ") (lit "5")
  = Ok (<[lit "photo_encrypted.png" := ImageFile scenario_out]> photo_folder,
        Some (ShowInfo (lit "Image encrypted and saved as:" ++ ["010"%char]
                        ++ lit "photo_encrypted.png"))).
Proof. vm_compute. reflexivity. Qed.

(** C8, at the key ["--5"]: [lstrip("-")] drops both dashes, what is left
    passes [isdigit], and [int] then raises [ValueError], which neither
    [validate_inputs] nor the callbacks catch. *)
Theorem validate_inputs_double_minus :
  isdigit (lstrip_minus (strip (lit "--5"))) = true /\
  int (strip (lit "--5")) = Raise ValueError /\
  validate_inputs photo_folder (lit "photo.png") (lit "--5")
    = Raise ValueError /\
  encrypt_action "/" None save_exact photo_folder (lit "photo.png") (lit "--5")
    = Raise ValueError /\
  decrypt_action "/" None save_exact photo_folder (lit "photo.png") (lit "--5")
    = Raise ValueError.
Proof. repeat split; vm_compute; reflexivity. Qed.

(** A key with one leading dash is read as a negative number. *)
Example validate_inputs_minus :
  validate_inputs photo_folder (lit "photo.png") (lit " -5 ")
    = Ok (Accepted (lit "photo.png") (-5)) /\
  validate_inputs photo_folder (lit "photo.png") (lit "five")
    = Ok (Rejected (ShowError (lit "Key must be a valid integer."))).
Proof. split; vm_compute; reflexivity. Qed.

(** * Further properties of the code *)

(** ** The two stages on their own *)

(** X1: Stage 1 undoes itself on the values the source gives it: for a key
    in [0, 255] (line 24 passes no other) and a buffer of 8-bit channels,
    XOR-ing every channel gives a buffer of 8-bit channels again, and
    XOR-ing it once more with the same key gives the first buffer back. *)
Theorem xor_stage_involution (img : Image) (key : Z) :
  wf_image img -> rgb_image img -> channel_ok key ->
  exists img1, xor_stage key img = Ok img1 /\ rgb_image img1 /\
               xor_stage key img1 = Ok img.
Proof.
  intros Hwf Hrgb Hkey.
  destruct (xor_stage_spec key img Hwf) as (img1 & H1 & Hs1 & Hp1).
  destruct (xor_stage_spec key img1) as (img2 & H2 & Hs2 & Hp2);
    [apply Hs1 |].
  exists img1. split; [done |]. split.
  - apply rgb_image_pix. intros x y p. rewrite Hp1.
    rewrite rgb_image_pix in Hrgb.
    destruct (pix img x y) as [q|] eqn:Hq; [|done]. intros [= <-].
    apply xor_pixel_ok; [done | by eapply Hrgb].
  - rewrite H2. f_equal.
    destruct Hs1 as (Hw1 & Hh1 & Hwf1), Hs2 as (Hw2 & Hh2 & Hwf2).
    apply image_ext; [split; [| split]; congruence | done |].
    intros x y. rewrite Hp2, Hp1.
    destruct (pix img x y) as [p|]; [|done]. simpl.
    by rewrite xor_pixel_twice.
Qed.

Lemma xor_stage_involution_witness :
  wf_image three_wide /\ rgb_image three_wide /\ channel_ok 200 /\
  exists img1, xor_stage 200 three_wide = Ok img1 /\ rgb_image img1 /\
               xor_stage 200 img1 = Ok three_wide.
Proof.
  assert (wf_image three_wide) as Hwf
    by (split; [reflexivity | repeat constructor]).
  assert (rgb_image three_wide) as Hrgb
    by (repeat constructor; simpl; lia).
  assert (channel_ok 200) as Hkey by (unfold channel_ok; lia).
  do 3 (split; [done |]).
  apply (xor_stage_involution three_wide 200); done.
Defined.

(** X2: Stage 2 undoes itself: exchanging the chosen pixel pairs twice with
    the same key puts every pixel back. *)
Theorem swap_stage_involution (img : Image) (key : Z) :
  wf_image img ->
  exists img1, swap_stage key img = Ok img1 /\ swap_stage key img1 = Ok img.
Proof.
  intros Hwf.
  destruct (swap_stage_spec key img Hwf) as (img1 & H1 & Hs1 & Hp1).
  destruct (swap_stage_spec key img1) as (img2 & H2 & Hs2 & Hp2);
    [apply Hs1 |].
  exists img1. split; [done |]. rewrite H2. f_equal.
  destruct Hs1 as (Hw1 & Hh1 & Hwf1), Hs2 as (Hw2 & Hh2 & Hwf2).
  apply image_ext; [split; [| split]; congruence | done |].
  intros x y. by rewrite Hp2, Hp1, Hw1, swap_perm_involutive.
Qed.

Lemma swap_stage_involution_witness :
  wf_image three_wide /\
  exists img1, swap_stage 4 three_wide = Ok img1 /\
               swap_stage 4 img1 = Ok three_wide.
Proof.
  assert (wf_image three_wide) as Hwf
    by (split; [reflexivity | repeat constructor]).
  split; [exact Hwf | apply (swap_stage_involution three_wide 4); exact Hwf].
Defined.

(** X3: the two stages commute, also with different keys: recolouring and
    then moving gives the same buffer as moving and then recolouring. *)
Theorem stages_commute (img : Image) (xor_key swap_key : Z) :
  wf_image img ->
  exists a b c,
    xor_stage xor_key img = Ok a /\ swap_stage swap_key a = Ok c /\
    swap_stage swap_key img = Ok b /\ xor_stage xor_key b = Ok c.
Proof.
  intros Hwf.
  destruct (xor_stage_spec xor_key img Hwf) as (a & Ha & Hsa & Hpa).
  destruct (swap_stage_spec swap_key a) as (c & Hc & Hsc & Hpc); [apply Hsa |].
  destruct (swap_stage_spec swap_key img Hwf) as (b & Hb & Hsb & Hpb).
  destruct (xor_stage_spec xor_key b) as (c' & Hc' & Hsc' & Hpc');
    [apply Hsb |].
  exists a, b, c. do 3 (split; [done |]). rewrite Hc'. f_equal.
  destruct Hsa as (Hwa & Hha & Hwfa), Hsb as (Hwb & Hhb & Hwfb),
    Hsc as (Hwc & Hhc & Hwfc), Hsc' as (Hwc' & Hhc' & Hwfc').
  apply image_ext; [split; [| split]; congruence | done |].
  intros x y. by rewrite Hpc', Hpb, Hpc, Hpa, Hwa.
Qed.

Lemma stages_commute_witness :
  wf_image three_wide /\
  exists a b c,
    xor_stage 9 three_wide = Ok a /\ swap_stage 2 a = Ok c /\
    swap_stage 2 three_wide = Ok b /\ xor_stage 9 b = Ok c.
Proof.
  assert (wf_image three_wide) as Hwf
    by (split; [reflexivity | repeat constructor]).
  split; [exact Hwf | apply (stages_commute three_wide 9 2); exact Hwf].
Defined.

Lemma for_each_ext {St : Type} (f g : nat -> St -> result St) (l : list nat)
    (s : St) :
  (forall i t, f i t = g i t) -> for_each l f s = for_each l g s.
Proof.
  intros Hfg. revert s. induction l as [|i l IH]; intros s; simpl; [done |].
  rewrite Hfg. destruct (g i s); [apply IH | done].
Qed.

Lemma swaps_parity (key1 key2 : Z) (x y : nat) :
  key1 mod 2 = key2 mod 2 -> swaps key1 x y = swaps key2 x y.
Proof.
  intros Hk. unfold swaps.
  by rewrite (Z.add_mod _ key1), (Z.add_mod _ key2), Hk by done.
Qed.

Lemma swaps_other_parity (key1 key2 : Z) (x y : nat) :
  key1 mod 2 <> key2 mod 2 -> swaps key1 x y = negb (swaps key2 x y).
Proof.
  intros Hk. unfold swaps.
  rewrite (Z.add_mod _ key1), (Z.add_mod _ key2) by done.
  pose proof (Z.mod_pos_bound key1 2 ltac:(lia)).
  pose proof (Z.mod_pos_bound key2 2 ltac:(lia)).
  pose proof (Z.mod_pos_bound (Z.of_nat x + Z.of_nat y) 2 ltac:(lia)).
  assert (forall a b, 0 <= a < 2 -> 0 <= b < 2 ->
            (a + b) mod 2 = if a =? b then 0 else 1) as Hsum.
  { intros a b Ha Hb.
    assert (a = 0 \/ a = 1) as [-> | ->] by lia;
      assert (b = 0 \/ b = 1) as [-> | ->] by lia; done. }
  rewrite (Hsum _ (key1 mod 2)), (Hsum _ (key2 mod 2)) by done. clear Hsum.
  generalize dependent ((Z.of_nat x + Z.of_nat y) mod 2).
  generalize dependent (key1 mod 2). generalize dependent (key2 mod 2).
  intros k2 Hk2 k1 Hne Hk1 s Hs.
  destruct (Z.eqb_spec s k1), (Z.eqb_spec s k2);
    simpl; try reflexivity; exfalso; lia.
Qed.

(** X6: Stage 2 reads the key through its parity only: two keys that are
    both even or both odd move the pixels of any buffer alike. *)
Theorem swap_stage_key_parity (img : Image) (key1 key2 : Z) :
  key1 mod 2 = key2 mod 2 -> swap_stage key1 img = swap_stage key2 img.
Proof.
  intros Hk. unfold swap_stage. apply for_each_ext. intros y s.
  apply for_each_ext. intros x t. unfold swap_body.
  by rewrite (swaps_parity key1 key2).
Qed.

Lemma swap_stage_key_parity_witness :
  3 mod 2 = 255 mod 2 /\ swap_stage 3 three_wide = swap_stage 255 three_wide.
Proof.
  split; [reflexivity | apply (swap_stage_key_parity three_wide 3 255)].
  reflexivity.
Defined.

(** ** What the transform does to the pixels *)

(** X4: the transform loses and invents no pixel, and moves none to another
    row: the result has as many rows as the input, and every row of the
    result is a rearrangement of the same row of the input with each pixel
    XOR-ed with the key modulo 256 (and every row of the input has such a
    row in the result). *)
Theorem transform_permutes_rows (img : Image) (key : Z) :
  wf_image img ->
  exists img', transform img key = Ok img' /\
    length (rows img') = length (rows img) /\
    (forall y r', rows img' !! y = Some r' ->
       exists r, rows img !! y = Some r /\
         r' ≡ₚ (xor_pixel (key mod 256) <$> r)) /\
    (forall y r, rows img !! y = Some r ->
       exists r', rows img' !! y = Some r' /\
         r' ≡ₚ (xor_pixel (key mod 256) <$> r)).
Proof.
  intros Hwf.
  destruct (transform_spec img key Hwf) as (img' & H1 & Hs & Hp).
  exists img'. split; [done |].
  destruct (rows_permutation img img' (xor_pixel (key mod 256)) (key mod 256)
              Hwf Hs Hp) as (Hlen & Hin & Hout).
  by repeat split.
Qed.

Lemma transform_permutes_rows_witness :
  wf_image three_wide /\
  exists img', transform three_wide 6 = Ok img' /\
    length (rows img') = length (rows three_wide) /\
    (forall y r', rows img' !! y = Some r' ->
       exists r, rows three_wide !! y = Some r /\
         r' ≡ₚ (xor_pixel (6 mod 256) <$> r)) /\
    (forall y r, rows three_wide !! y = Some r ->
       exists r', rows img' !! y = Some r' /\
         r' ≡ₚ (xor_pixel (6 mod 256) <$> r)).
Proof.
  assert (wf_image three_wide) as Hwf
    by (split; [reflexivity | repeat constructor]).
  split; [exact Hwf | apply (transform_permutes_rows three_wide 6); exact Hwf].
Defined.

(** X5: under one key, different buffers of any dimensions are transformed
    into different buffers: the transform loses no information. *)
Theorem transform_injective (a b : Image) (key : Z) :
  wf_image a -> wf_image b -> transform a key = transform b key -> a = b.
Proof.
  intros Ha Hb Heq.
  destruct (transform_spec a key Ha) as (a1 & Ha1 & Hsa & Hpa).
  destruct (transform_spec a1 key) as (a2 & Ha2 & Hsa2 & Hpa2); [apply Hsa |].
  destruct (transform_spec b key Hb) as (b1 & Hb1 & Hsb & Hpb).
  destruct (transform_spec b1 key) as (b2 & Hb2 & Hsb2 & Hpb2); [apply Hsb |].
  assert (a1 = b1) as <- by congruence.
  assert (forall c c1 c2, wf_image c -> same_shape c c1 -> same_shape c1 c2 ->
            (forall x y, pix c1 x y = xor_pixel (key mod 256)
               <$> pix c (swap_perm (width c) (key mod 256) y x) y) ->
            (forall x y, pix c2 x y = xor_pixel (key mod 256)
               <$> pix c1 (swap_perm (width c1) (key mod 256) y x) y) ->
            c2 = c) as Hback.
  { intros c c1 c2 Hc (Hw1 & Hh1 & Hwf1) (Hw2 & Hh2 & Hwf2) Hp1 Hp2.
    apply image_ext; [split; [| split]; congruence | done |].
    intros x y. rewrite Hp2, Hp1, Hw1, swap_perm_involutive.
    destruct (pix c x y) as [p|]; [|done]. simpl. by rewrite xor_pixel_twice. }
  rewrite <- (Hback a a1 a2), <- (Hback b a1 b2) by done. congruence.
Qed.

Lemma transform_injective_witness :
  wf_image scenario /\ wf_image scenario /\
  transform scenario 5 = transform scenario 5 /\ scenario = scenario.
Proof.
  split; [exact wf_scenario |]. split; [exact wf_scenario |].
  split; [reflexivity |].
  apply (transform_injective scenario scenario 5);
    [exact wf_scenario | exact wf_scenario | reflexivity].
Defined.

(** ** Running the transform with two keys *)

Lemma mod_256_parity (key : Z) : (key mod 256) mod 2 = key mod 2.
Proof.
  rewrite (Z.div_mod key 256) at 2 by done.
  replace (256 * (key / 256) + key mod 256)
    with (key mod 256 + 128 * (key / 256) * 2) by lia.
  symmetry. apply Z_mod_plus_full.
Qed.

Lemma swap_perm_parity (w : nat) (key1 key2 : Z) (y x : nat) :
  key1 mod 2 = key2 mod 2 -> swap_perm w key1 y x = swap_perm w key2 y x.
Proof.
  intros Hk. unfold swap_perm, swap_source.
  by rewrite !(swaps_parity key1 key2 _ _ Hk).
Qed.

Lemma swap_perm_mirror (w : nat) (key1 key2 : Z) (y x : nat) :
  key1 mod 2 <> key2 mod 2 -> (x < w)%nat ->
  swap_perm w key1 y (swap_perm w key2 y x) = (w - 1 - x)%nat.
Proof.
  intros Hk Hx. pose proof (half_facts w) as Hhalf.
  assert (forall c, swaps key1 c y = negb (swaps key2 c y)) as Hs
    by (intros c; by apply swaps_other_parity).
  destruct (decide (x < w / 2)%nat) as [Hlow|Hlow].
  - rewrite (swap_perm_low w key2) by done.
    destruct (swaps key2 x y) eqn:H2.
    + rewrite swap_perm_high by done. by rewrite Hs, H2.
    + rewrite swap_perm_low by done. by rewrite Hs, H2.
  - destruct (decide (w - 1 - x < w / 2)%nat) as [Hhigh|Hmid].
    + replace x with (w - 1 - (w - 1 - x))%nat at 1 by lia.
      rewrite (swap_perm_high w key2) by done.
      destruct (swaps key2 (w - 1 - x)%nat y) eqn:H2.
      * rewrite swap_perm_low by done. by rewrite Hs, H2.
      * rewrite swap_perm_high by done. rewrite Hs, H2. simpl. lia.
    + assert (x = w / 2)%nat as -> by lia.
      assert (Nat.odd w = true) as Hodd.
      { assert (w = 1 + 2 * (w / 2))%nat as -> by lia.
        by rewrite Nat.odd_add_mul_2. }
      rewrite !swap_perm_middle by done. lia.
Qed.

Lemma xor_pixel_compose (key1 key2 : Z) (p : pixel) :
  xor_pixel key2 (xor_pixel key1 p) = xor_pixel (Z.lxor key1 key2) p.
Proof.
  destruct p as [[r g] b]. unfold xor_pixel. by rewrite !Z.lxor_assoc.
Qed.

Lemma xor_pixel_fixed (key : Z) (p : pixel) : xor_pixel key p = p -> key = 0.
Proof.
  destruct p as [[r g] b]. unfold xor_pixel. intros [= Hr _ _].
  apply (f_equal (Z.lxor r)) in Hr.
  by rewrite <- Z.lxor_assoc, Z.lxor_nilpotent, Z.lxor_0_l in Hr.
Qed.

Lemma transform_two_keys (img : Image) (key1 key2 : Z) :
  wf_image img ->
  exists img1 img2,
    transform img key1 = Ok img1 /\ transform img1 key2 = Ok img2 /\
    same_shape img img2 /\
    forall x y,
      pix img2 x y =
      xor_pixel (Z.lxor (key1 mod 256) (key2 mod 256))
        <$> pix img (swap_perm (width img) (key1 mod 256) y
                       (swap_perm (width img) (key2 mod 256) y x)) y.
Proof.
  intros Hwf.
  destruct (transform_spec img key1 Hwf) as (img1 & H1 & Hs1 & Hp1).
  destruct (transform_spec img1 key2) as (img2 & H2 & Hs2 & Hp2);
    [apply Hs1 |].
  exists img1, img2. do 2 (split; [done |]).
  destruct Hs1 as (Hw1 & Hh1 & Hwf1), Hs2 as (Hw2 & Hh2 & Hwf2).
  split; [split; [| split]; congruence |].
  intros x y. rewrite Hp2, Hp1, Hw1.
  destruct (pix img _ y) as [p|]; [|done]. simpl.
  by rewrite xor_pixel_compose.
Qed.

(** X7: undoing with another key of the same parity puts every pixel back in
    its place but leaves each channel XOR-ed with the XOR of the two keys
    modulo 256; unless the keys agree modulo 256, a buffer with at least one
    pixel is not restored. *)
Theorem wrong_key_same_parity (img : Image) (key1 key2 : Z) :
  wf_image img -> key1 mod 2 = key2 mod 2 ->
  exists img1 img2,
    transform img key1 = Ok img1 /\ transform img1 key2 = Ok img2 /\
    (forall x y,
       pix img2 x y =
       xor_pixel (Z.lxor (key1 mod 256) (key2 mod 256)) <$> pix img x y) /\
    (key1 mod 256 <> key2 mod 256 ->
     (0 < width img)%nat -> (0 < height img)%nat -> img2 <> img).
Proof.
  intros Hwf Hk.
  destruct (transform_two_keys img key1 key2 Hwf)
    as (img1 & img2 & H1 & H2 & Hs & Hp).
  exists img1, img2. do 2 (split; [done |]).
  assert (forall x y,
            pix img2 x y =
            xor_pixel (Z.lxor (key1 mod 256) (key2 mod 256)) <$> pix img x y)
    as Hp'.
  { intros x y. rewrite Hp.
    rewrite (swap_perm_parity _ (key1 mod 256) (key2 mod 256))
      by (by rewrite !mod_256_parity).
    by rewrite swap_perm_involutive. }
  split; [done |]. intros Hne Hw Hh ->.
  destruct (pix_in_range img 0 0) as [p Hpix]; [done | done | done |].
  specialize (Hp' O O). rewrite Hpix in Hp'. simpl in Hp'.
  injection Hp' as Hp'. symmetry in Hp'. apply xor_pixel_fixed in Hp'.
  by apply Z.lxor_eq in Hp'.
Qed.

Lemma wrong_key_same_parity_witness :
  wf_image scenario /\ 5 mod 2 = 7 mod 2 /\
  exists img1 img2,
    transform scenario 5 = Ok img1 /\ transform img1 7 = Ok img2 /\
    (forall x y,
       pix img2 x y =
       xor_pixel (Z.lxor (5 mod 256) (7 mod 256)) <$> pix scenario x y) /\
    (5 mod 256 <> 7 mod 256 ->
     (0 < width scenario)%nat -> (0 < height scenario)%nat ->
     img2 <> scenario).
Proof.
  split; [exact wf_scenario |]. split; [reflexivity |].
  apply (wrong_key_same_parity scenario 5 7); [exact wf_scenario | reflexivity].
Defined.

(** X8: undoing with a key of the other parity leaves every row mirrored:
    column [x] then holds the pixel of column [W - 1 - x], each channel
    XOR-ed with the XOR of the two keys modulo 256. *)
Theorem wrong_key_other_parity (img : Image) (key1 key2 : Z) :
  wf_image img -> key1 mod 2 <> key2 mod 2 ->
  exists img1 img2,
    transform img key1 = Ok img1 /\ transform img1 key2 = Ok img2 /\
    forall x y, (x < width img)%nat ->
      pix img2 x y =
      xor_pixel (Z.lxor (key1 mod 256) (key2 mod 256))
        <$> pix img (width img - 1 - x)%nat y.
Proof.
  intros Hwf Hk.
  destruct (transform_two_keys img key1 key2 Hwf)
    as (img1 & img2 & H1 & H2 & Hs & Hp).
  exists img1, img2. do 2 (split; [done |]).
  intros x y Hx. rewrite Hp, swap_perm_mirror; [done | | done].
  by rewrite !mod_256_parity.
Qed.

Lemma wrong_key_other_parity_witness :
  wf_image three_wide /\ 5 mod 2 <> 8 mod 2 /\
  exists img1 img2,
    transform three_wide 5 = Ok img1 /\ transform img1 8 = Ok img2 /\
    forall x y, (x < width three_wide)%nat ->
      pix img2 x y =
      xor_pixel (Z.lxor (5 mod 256) (8 mod 256))
        <$> pix three_wide (width three_wide - 1 - x)%nat y.
Proof.
  assert (wf_image three_wide) as Hwf
    by (split; [reflexivity | repeat constructor]).
  split; [exact Hwf |]. split; [discriminate |].
  apply (wrong_key_other_parity three_wide 5 8); [exact Hwf | discriminate].
Defined.

(** ** Stripping *)

Lemma lstrip_chars_head (f : ascii -> bool) (s : str) (c : ascii) :
  head (lstrip_chars f s) = Some c -> f c = false.
Proof.
  induction s as [|a s IH]; simpl; [done |].
  destruct (f a) eqn:Ha; [done |]. simpl. congruence.
Qed.

Lemma lstrip_chars_id (f : ascii -> bool) (s : str) :
  (forall c, head s = Some c -> f c = false) -> lstrip_chars f s = s.
Proof.
  destruct s as [|a s]; simpl; [done |]. intros H. by rewrite (H a).
Qed.

Lemma lstrip_chars_all (f : ascii -> bool) (s : str) :
  Forall (fun c => f c = true) s -> lstrip_chars f s = [].
Proof. induction 1 as [|a s Ha _ IH]; simpl; [done |]. by rewrite Ha. Qed.

Lemma lstrip_chars_keeps (f : ascii -> bool) (s : str) (c : ascii) :
  c ∈ s -> f c = false -> c ∈ lstrip_chars f s.
Proof.
  intros Hc Hf. induction s as [|a s IH]; simpl; [done |].
  destruct (f a) eqn:Ha; [| done].
  apply IH. apply elem_of_cons in Hc as [-> | Hc]; [congruence | done].
Qed.

Lemma rstrip_chars_snoc (f : ascii -> bool) (s : str) (c : ascii) :
  rstrip_chars f (s ++ [c]) = if f c then rstrip_chars f s else s ++ [c].
Proof.
  unfold rstrip_chars. rewrite rev_unit. simpl.
  destruct (f c); [done |]. simpl. by rewrite rev_involutive.
Qed.

Lemma rstrip_chars_last (f : ascii -> bool) (s : str) (c : ascii) :
  last (rstrip_chars f s) = Some c -> f c = false.
Proof.
  induction s as [|a s IH] using rev_ind; [done |].
  rewrite rstrip_chars_snoc. destruct (f a) eqn:Ha; [done |].
  rewrite last_snoc. congruence.
Qed.

Lemma rstrip_chars_head (f : ascii -> bool) (s : str) (c : ascii) :
  head (rstrip_chars f s) = Some c -> head s = Some c.
Proof.
  induction s as [|a s IH] using rev_ind; [done |].
  rewrite rstrip_chars_snoc. destruct (f a); [|done].
  intros H. apply IH in H. destruct s; [done | done].
Qed.

Lemma rstrip_chars_id (f : ascii -> bool) (s : str) :
  (forall c, last s = Some c -> f c = false) -> rstrip_chars f s = s.
Proof.
  destruct s as [|a s _] using rev_ind; [done |]. intros H.
  rewrite rstrip_chars_snoc, (H a); [done | apply last_snoc].
Qed.

(** [strip] does nothing to what it returns. *)
Lemma strip_idemp (s : str) : strip (strip s) = strip s.
Proof.
  unfold strip at 1.
  rewrite lstrip_chars_id.
  - apply rstrip_chars_id. intros c. apply rstrip_chars_last.
  - intros c Hc. unfold strip in Hc. apply rstrip_chars_head in Hc.
    by apply lstrip_chars_head in Hc.
Qed.

Lemma is_int_space_space (c : ascii) :
  is_int_space c = true -> is_space c = true.
Proof.
  unfold is_int_space, is_space. generalize (code c). intros n.
  rewrite !orb_true_iff, !andb_true_iff, !N.leb_le, !N.eqb_eq. lia.
Qed.

(** What [str.strip] returns has no whitespace left for [int()] to skip. *)
Lemma int_strip_stripped (s : str) :
  rstrip_chars is_int_space (lstrip_chars is_int_space (strip s)) = strip s.
Proof.
  assert (forall c, is_space c = false -> is_int_space c = false) as Hns.
  { intros c Hc. destruct (is_int_space c) eqn:E; [|done].
    apply is_int_space_space in E. congruence. }
  rewrite lstrip_chars_id.
  - apply rstrip_chars_id. intros c Hc. apply Hns.
    unfold strip in Hc. by apply rstrip_chars_last in Hc.
  - intros c Hc. apply Hns. unfold strip in Hc.
    apply rstrip_chars_head in Hc. by apply lstrip_chars_head in Hc.
Qed.

Lemma digit_count_length (s : str) : (digit_count s <= length s)%nat.
Proof. induction s as [|c s IH]; simpl; [done |]. destruct (is_decimal c); lia. Qed.

Lemma strip_all_space (s : str) :
  Forall (fun c => is_space c = true) s -> strip s = [].
Proof. intros H. unfold strip. by rewrite lstrip_chars_all. Qed.

(** ** Which keys [validate_inputs] lets through *)

Lemma is_decimal_digit (c : ascii) : is_decimal c = true -> is_digit c = true.
Proof. unfold is_digit. by intros ->. Qed.

Lemma is_decimal_not_sign (c : ascii) :
  is_decimal c = true ->
  Ascii.eqb c "-" = false /\ Ascii.eqb c "+" = false /\
  Ascii.eqb c "_" = false.
Proof.
  intros Hc. repeat split; apply Ascii.eqb_neq; intros ->; done.
Qed.

Lemma int_digits_decimal (ds : str) (acc : Z) (after_digit : bool) :
  Forall (fun c => is_decimal c = true) ds ->
  ds <> [] \/ after_digit = true ->
  int_digits acc after_digit ds =
    Some (fold_left (fun a c => 10 * a + (Z.of_N (code c) - 48)) ds acc).
Proof.
  intros Hds. revert acc after_digit.
  induction Hds as [|c ds Hc _ IH]; intros acc b Hne; simpl.
  - destruct Hne as [? | ->]; done.
  - rewrite Hc. apply IH. by right.
Qed.

Lemma validate_inputs_key (fs : gmap str file) (image_path key_value : str) :
  strip image_path <> [] -> isfile fs (strip image_path) = true ->
  strip key_value <> [] -> isdigit (lstrip_minus (strip key_value)) = true ->
  validate_inputs fs image_path key_value =
    key ← int (strip key_value); Ok (Accepted (strip image_path) key).
Proof.
  intros Hp Hf Hk Hd. unfold validate_inputs.
  rewrite bool_decide_eq_false_2 by done. rewrite Hf. simpl.
  rewrite bool_decide_eq_false_2 by done. by rewrite Hd.
Qed.

(** X9: whitespace around the two fields does not count: [validate_inputs]
    gives the same answer on the fields and on the stripped fields. *)
Theorem validate_inputs_strip (fs : gmap str file) (image_path key_value : str) :
  validate_inputs fs (strip image_path) (strip key_value)
  = validate_inputs fs image_path key_value.
Proof. unfold validate_inputs. by rewrite !strip_idemp. Qed.

(** X10: a key field that holds, whitespace around it apart, decimal digits
    with at most one dash before them is accepted, and the key returned is
    the number written, negated after a dash.  (At most 4300 digits: [int]
    refuses longer literals.) *)
Theorem validate_inputs_accepts (fs : gmap str file)
    (image_path key_value : str) (negative : bool) (ds : str) :
  strip image_path <> [] -> isfile fs (strip image_path) = true ->
  strip key_value = (if negative then ["-"%char] else []) ++ ds ->
  ds <> [] -> Forall (fun c => is_decimal c = true) ds ->
  (length ds <= 4300)%nat ->
  validate_inputs fs image_path key_value
  = Ok (Accepted (strip image_path)
          (if negative then - decimal_value ds else decimal_value ds)).
Proof.
  intros Hp Hf Hk Hne Hds Hlen.
  assert ((digit_count ds <=? max_str_digits)%nat = true) as Hmax.
  { apply Nat.leb_le. pose proof (digit_count_length ds).
    unfold max_str_digits. lia. }
  assert (lstrip_minus ds = ds) as Hlm.
  { apply lstrip_chars_id. intros c Hc.
    destruct ds as [|d ds']; [done |]. injection Hc as ->.
    apply Forall_cons in Hds as [Hd _]. by apply is_decimal_not_sign. }
  rewrite validate_inputs_key; [| done | done | |].
  - unfold int. rewrite int_strip_stripped, Hk.
    destruct negative; simpl.
    + rewrite (int_digits_decimal ds 0 false Hds) by (by left).
      by rewrite Hmax.
    + destruct ds as [|d ds'] eqn:Hd; [done |]. rewrite <- Hd in *.
      assert (is_decimal d = true) as Hdec
        by (rewrite Hd in Hds; by apply Forall_cons in Hds as [? _]).
      destruct (is_decimal_not_sign d Hdec) as (-> & -> & _).
      rewrite (int_digits_decimal ds 0 false Hds) by (by left).
      by rewrite Hmax.
  - rewrite Hk. destruct negative, ds; done.
  - rewrite Hk.
    assert (lstrip_minus ((if negative then ["-"%char] else []) ++ ds) = ds)
      as -> by (by destruct negative).
    unfold isdigit. destruct ds as [|d ds']; [done |].
    apply forallb_forall. intros c Hc. apply is_decimal_digit.
    rewrite Forall_forall in Hds. apply Hds. by apply list_elem_of_In.
Qed.

Lemma validate_inputs_accepts_witness :
  strip (lit " photo.png ") <> [] /\
  isfile photo_folder (strip (lit " photo.png ")) = true /\
  strip (lit " -120 ") = (if true then ["-"%char] else []) ++ lit "120" /\
  lit "120" <> [] /\ Forall (fun c => is_decimal c = true) (lit "120") /\
  (length (lit "120") <= 4300)%nat /\
  validate_inputs photo_folder (lit " photo.png ") (lit " -120 ")
  = Ok (Accepted (strip (lit " photo.png "))
          (if true then - decimal_value (lit "120")
           else decimal_value (lit "120"))).
Proof.
  assert (strip (lit " photo.png ") <> []) as H1 by (vm_compute; discriminate).
  assert (isfile photo_folder (strip (lit " photo.png ")) = true) as H2
    by (vm_compute; reflexivity).
  assert (Forall (fun c => is_decimal c = true) (lit "120")) as H3
    by (repeat constructor).
  assert (length (lit "120") <= 4300)%nat as H4 by (simpl; lia).
  do 2 (split; [done |]). split; [reflexivity |]. split; [discriminate |].
  do 2 (split; [done |]).
  apply (validate_inputs_accepts photo_folder (lit " photo.png ")
           (lit " -120 ") true (lit "120"));
    [done | done | reflexivity | discriminate | done | done].
Defined.

(** X11: every key field that begins, whitespace apart, with two dashes and
    holds only digits after its dashes passes the digit check and makes
    [validate_inputs] raise [ValueError]. *)
Theorem validate_inputs_two_dashes (fs : gmap str file)
    (image_path key_value t : str) :
  strip image_path <> [] -> isfile fs (strip image_path) = true ->
  strip key_value = "-"%char :: "-"%char :: t ->
  isdigit (lstrip_minus t) = true ->
  validate_inputs fs image_path key_value = Raise ValueError.
Proof.
  intros Hp Hf Hk Hd.
  rewrite validate_inputs_key; [| done | done | by rewrite Hk | by rewrite Hk].
  unfold int. by rewrite int_strip_stripped, Hk.
Qed.

Lemma validate_inputs_two_dashes_witness :
  strip (lit "photo.png") <> [] /\
  isfile photo_folder (strip (lit "photo.png")) = true /\
  strip (lit "---42") = "-"%char :: "-"%char :: lit "-42" /\
  isdigit (lstrip_minus (lit "-42")) = true /\
  validate_inputs photo_folder (lit "photo.png") (lit "---42")
  = Raise ValueError.
Proof.
  assert (strip (lit "photo.png") <> []) as H1 by (vm_compute; discriminate).
  assert (isfile photo_folder (strip (lit "photo.png")) = true) as H2
    by (vm_compute; reflexivity).
  do 2 (split; [done |]). do 2 (split; [reflexivity |]).
  apply (validate_inputs_two_dashes photo_folder (lit "photo.png")
           (lit "---42") (lit "-42")); [done | done | reflexivity | reflexivity].
Defined.

(** X12: a key field that still holds, once the whitespace around it is
    stripped, a character that is neither a dash nor a digit is turned down
    with "Key must be a valid integer."; this includes keys that [int]
    would read, such as "+5" and "1_000". *)
Theorem validate_inputs_rejects (fs : gmap str file)
    (image_path key_value : str) (c : ascii) :
  strip image_path <> [] -> isfile fs (strip image_path) = true ->
  c ∈ strip key_value -> c <> "-"%char -> is_digit c = false ->
  validate_inputs fs image_path key_value
  = Ok (Rejected (ShowError (lit "Key must be a valid integer."))).
Proof.
  intros Hp Hf Hc Hdash Hdig. unfold validate_inputs.
  rewrite bool_decide_eq_false_2 by done. rewrite Hf. simpl.
  rewrite bool_decide_eq_false_2 by (intros E; rewrite E in Hc; by inv Hc).
  assert (isdigit (lstrip_minus (strip key_value)) = false) as ->; [|done].
  assert (c ∈ lstrip_minus (strip key_value)) as Hin.
  { apply lstrip_chars_keeps; [done |]. by apply Ascii.eqb_neq. }
  unfold isdigit. destruct (lstrip_minus (strip key_value)) as [|a l] eqn:E.
  - done.
  - apply not_true_iff_false. intros Hall. rewrite forallb_forall in Hall.
    apply list_elem_of_In in Hin. specialize (Hall c Hin). congruence.
Qed.

Lemma validate_inputs_rejects_witness :
  strip (lit "photo.png") <> [] /\
  isfile photo_folder (strip (lit "photo.png")) = true /\
  "_"%char ∈ strip (lit "1_000") /\ "_"%char <> "-"%char /\
  is_digit "_" = false /\
  int (lit "1_000") = Ok 1000 /\
  validate_inputs photo_folder (lit "photo.png") (lit "1_000")
  = Ok (Rejected (ShowError (lit "Key must be a valid integer."))).
Proof.
  assert (strip (lit "photo.png") <> []) as H1 by (vm_compute; discriminate).
  assert (isfile photo_folder (strip (lit "photo.png")) = true) as H2
    by (vm_compute; reflexivity).
  assert ("_"%char ∈ strip (lit "1_000")) as H3
    by (vm_compute; apply elem_of_cons; right; apply elem_of_cons; by left).
  do 3 (split; [done |]). split; [discriminate |].
  do 2 (split; [reflexivity |]).
  apply (validate_inputs_rejects photo_folder (lit "photo.png") (lit "1_000")
           "_"); [done | done | done | discriminate | reflexivity].
Defined.

(** X13: a path field that is empty or holds only whitespace is turned down
    with "Please select an image file.", whatever the key field holds. *)
Theorem validate_inputs_blank_path (fs : gmap str file)
    (image_path key_value : str) :
  Forall (fun c => is_space c = true) image_path ->
  validate_inputs fs image_path key_value
  = Ok (Rejected (ShowError (lit "Please select an image file."))).
Proof.
  intros Hsp. unfold validate_inputs. rewrite (strip_all_space _ Hsp). done.
Qed.

Lemma validate_inputs_blank_path_witness :
  Forall (fun c => is_space c = true) (lit "   ") /\
  validate_inputs photo_folder (lit "   ") (lit "--5")
  = Ok (Rejected (ShowError (lit "Please select an image file."))).
Proof.
  assert (Forall (fun c => is_space c = true) (lit "   ")) as H
    by (repeat constructor).
  split; [done |].
  apply (validate_inputs_blank_path photo_folder (lit "   ") (lit "--5")).
  done.
Defined.

(** X14: a key field made of dashes only is turned down with "Key must be a
    valid integer."; it does not reach [int]. *)
Theorem validate_inputs_dashes_only (fs : gmap str file)
    (image_path key_value : str) (n : nat) :
  strip image_path <> [] -> isfile fs (strip image_path) = true ->
  strip key_value = replicate (S n) "-"%char ->
  validate_inputs fs image_path key_value
  = Ok (Rejected (ShowError (lit "Key must be a valid integer."))).
Proof.
  intros Hp Hf Hk. unfold validate_inputs.
  rewrite bool_decide_eq_false_2 by done. rewrite Hf. simpl.
  rewrite bool_decide_eq_false_2 by (by rewrite Hk).
  rewrite Hk. unfold lstrip_minus. rewrite lstrip_chars_all; [done |].
  by apply Forall_replicate.
Qed.

Lemma validate_inputs_dashes_only_witness :
  strip (lit "photo.png") <> [] /\
  isfile photo_folder (strip (lit "photo.png")) = true /\
  strip (lit " - ") = replicate 1 "-"%char /\
  validate_inputs photo_folder (lit "photo.png") (lit " - ")
  = Ok (Rejected (ShowError (lit "Key must be a valid integer."))).
Proof.
  assert (strip (lit "photo.png") <> []) as H1 by (vm_compute; discriminate).
  assert (isfile photo_folder (strip (lit "photo.png")) = true) as H2
    by (vm_compute; reflexivity).
  do 2 (split; [done |]). split; [reflexivity |].
  apply (validate_inputs_dashes_only photo_folder (lit "photo.png")
           (lit " - ") 0); [done | done | reflexivity].
Defined.

(** ** The file-level transform and the callbacks *)

Lemma int_raises (s : str) (e : exn) : int s = Raise e -> e = ValueError.
Proof.
  unfold int. repeat case_match; congruence.
Qed.

Lemma validate_inputs_accepted_inv (fs : gmap str file)
    (image_path key_value path : str) (key : Z) :
  validate_inputs fs image_path key_value = Ok (Accepted path key) ->
  path = strip image_path /\ path <> [] /\ isfile fs path = true /\
  strip key_value <> [] /\ isdigit (lstrip_minus (strip key_value)) = true /\
  int (strip key_value) = Ok key.
Proof.
  unfold validate_inputs.
  case_bool_decide as Hp; [done |].
  destruct (isfile fs (strip image_path)) eqn:Hfile; [|done]. simpl.
  case_bool_decide as Hk; [done |].
  destruct (isdigit _) eqn:Hd; [|done]. simpl.
  destruct (int (strip key_value)) as [k|e]; [|done]. simpl.
  by intros [= <- <-].
Qed.

Lemma transform_twice (img : Image) (key : Z) :
  wf_image img ->
  exists img1, transform img key = Ok img1 /\ transform img1 key = Ok img.
Proof.
  intros Hwf.
  destruct (transform_two_keys img key key Hwf)
    as (img1 & img2 & H1 & H2 & Hs & Hp).
  exists img1. split; [done |]. rewrite H2. f_equal.
  apply image_ext; [done | done |]. intros x y.
  rewrite Hp, swap_perm_involutive, Z.lxor_nilpotent.
  destruct (pix img x y) as [p|]; [|done]. simpl. by rewrite xor_pixel_0.
Qed.

Section Files.
Variable sep : ascii.
Variable altsep : option ascii.
Variable save : Image -> str -> result file.
Variable fs : gmap str file.

(** X15: on a readable image the file-level transform can fail in
    [img.save] only; when that succeeds, the output path holds what was
    encoded and every other path holds what it held. *)
Theorem transform_image_on_image (input_path output_path : str) (key : Z)
    (img : Image) :
  fs !! input_path = Some (ImageFile img) -> wf_image img ->
  exists img', transform img key = Ok img' /\
    transform_image save fs input_path output_path key =
      match save img' output_path with
      | Ok f => Ok (<[output_path := f]> fs)
      | Raise e => Raise e
      end /\
    forall fs', transform_image save fs input_path output_path key = Ok fs' ->
      fs' !! output_path <> None /\
      forall q, q <> output_path -> fs' !! q = fs !! q.
Proof.
  intros Hin Hwf.
  destruct (transform_spec img key Hwf) as (img' & Ht & _).
  exists img'. split; [done |].
  assert (transform_image save fs input_path output_path key =
            match save img' output_path with
            | Ok f => Ok (<[output_path := f]> fs)
            | Raise e => Raise e
            end) as Heq.
  { unfold transform_image, image_open. rewrite Hin. simpl. rewrite Ht. done. }
  split; [done |]. intros fs'. rewrite Heq.
  destruct (save img' output_path) as [f|]; [|done]. intros [= <-]. split.
  - by rewrite lookup_insert_eq.
  - intros q Hq. by apply lookup_insert_ne.
Qed.

(** X16: with a lossless encoder, running the file-level transform on its
    own output with the same key writes the original image, whatever the
    three paths are. *)
Theorem transform_image_round_trip (p q r : str) (key : Z) (img : Image) :
  lossless save -> fs !! p = Some (ImageFile img) -> wf_image img ->
  exists fs1 fs2,
    transform_image save fs p q key = Ok fs1 /\
    transform_image save fs1 q r key = Ok fs2 /\
    fs2 !! r = Some (ImageFile img).
Proof.
  intros Hsave Hp Hwf.
  destruct (transform_twice img key Hwf) as (img1 & H1 & H2).
  exists (<[q := ImageFile img1]> fs),
    (<[r := ImageFile img]> (<[q := ImageFile img1]> fs)).
  repeat split.
  - unfold transform_image, image_open. rewrite Hp. simpl. rewrite H1. simpl.
    by rewrite Hsave.
  - unfold transform_image, image_open. rewrite lookup_insert_eq. simpl.
    rewrite H2. simpl. by rewrite Hsave.
  - by rewrite lookup_insert_eq.
Qed.

(** X17: the callbacks catch whatever [transform_image] raises; an
    exception leaves them only when [validate_inputs] raises it, and that
    is always the [ValueError] of the key conversion. *)
Theorem action_raises_iff (image_path key_value : str) (e : exn) :
  (encrypt_action sep altsep save fs image_path key_value = Raise e <->
   validate_inputs fs image_path key_value = Raise e) /\
  (decrypt_action sep altsep save fs image_path key_value = Raise e <->
   validate_inputs fs image_path key_value = Raise e) /\
  (validate_inputs fs image_path key_value = Raise e ->
   e = ValueError /\ int (strip key_value) = Raise ValueError).
Proof.
  split; [| split].
  - unfold encrypt_action.
    destruct (validate_inputs fs image_path key_value) as [[d|path key]|e'];
      simpl; [split; congruence | | split; congruence].
    destruct (splitext sep altsep path) as [base ext].
    destruct (transform_image _ _ _ _ _); split; congruence.
  - unfold decrypt_action.
    destruct (validate_inputs fs image_path key_value) as [[d|path key]|e'];
      simpl; [split; congruence | | split; congruence].
    destruct (splitext sep altsep path) as [base ext].
    destruct (transform_image _ _ _ _ _); split; congruence.
  - intros Hv. apply validate_inputs_raises in Hv as [_ Hint].
    pose proof (int_raises _ _ Hint) as ->. done.
Qed.
End Files.

Lemma transform_image_on_image_witness :
  photo_folder !! lit "photo.png" = Some (ImageFile scenario) /\
  wf_image scenario /\
  exists img', transform scenario 5 = Ok img' /\
    transform_image save_exact photo_folder (lit "photo.png") (lit "out.png") 5 =
      match save_exact img' (lit "out.png") with
      | Ok f => Ok (<[lit "out.png" := f]> photo_folder)
      | Raise e => Raise e
      end /\
    forall fs',
      transform_image save_exact photo_folder (lit "photo.png") (lit "out.png") 5
        = Ok fs' ->
      fs' !! lit "out.png" <> None /\
      forall q, q <> lit "out.png" -> fs' !! q = photo_folder !! q.
Proof.
  assert (photo_folder !! lit "photo.png" = Some (ImageFile scenario)) as H
    by (vm_compute; reflexivity).
  split; [done |]. split; [exact wf_scenario |].
  apply (transform_image_on_image save_exact photo_folder (lit "photo.png")
           (lit "out.png") 5 scenario); [done | exact wf_scenario].
Defined.

Lemma transform_image_round_trip_witness :
  lossless save_exact /\
  photo_folder !! lit "photo.png" = Some (ImageFile scenario) /\
  wf_image scenario /\
  exists fs1 fs2,
    transform_image save_exact photo_folder (lit "photo.png") (lit "a.png") 77
      = Ok fs1 /\
    transform_image save_exact fs1 (lit "a.png") (lit "b.png") 77 = Ok fs2 /\
    fs2 !! lit "b.png" = Some (ImageFile scenario).
Proof.
  assert (lossless save_exact) as Hs by (intros img path; reflexivity).
  assert (photo_folder !! lit "photo.png" = Some (ImageFile scenario)) as H
    by (vm_compute; reflexivity).
  split; [done |]. split; [done |]. split; [exact wf_scenario |].
  apply (transform_image_round_trip save_exact photo_folder (lit "photo.png")
           (lit "a.png") (lit "b.png") 77 scenario);
    [done | done | exact wf_scenario].
Defined.

(** ** Encrypting and then decrypting through the callbacks *)

Lemma strip_fixed (s : str) :
  (forall c, head s = Some c -> is_space c = false) ->
  (forall c, last s = Some c -> is_space c = false) ->
  strip s = s.
Proof.
  intros Hh Hl. unfold strip. rewrite lstrip_chars_id by done.
  by apply rstrip_chars_id.
Qed.

Lemma strip_ends (s : str) (c : ascii) :
  head (strip s) = Some c \/ last (strip s) = Some c -> is_space c = false.
Proof.
  unfold strip. intros [H | H].
  - apply rstrip_chars_head in H. by apply lstrip_chars_head in H.
  - by apply rstrip_chars_last in H.
Qed.

Lemma splitext_base_nonempty (p : str) (sep : ascii) (altsep : option ascii)
    (extsep : ascii) :
  p <> [] -> (_splitext p sep altsep extsep).1 <> [].
Proof.
  intros Hp. unfold _splitext.
  set (si := match altsep with
             | Some a => Z.max (rfind sep p) (rfind a p)
             | None => rfind sep p
             end).
  assert (-1 <= si) as Hsi.
  { subst si. pose proof (rfind_range sep p). destruct altsep; lia. }
  destruct (Z.gtb_spec (rfind extsep p) si) as [Hgt|]; simpl; [|done].
  destruct (skip_leading_dots _ _ _ _) eqn:Hskip; simpl; [|done].
  apply skip_leading_dots_true in Hskip as (j & Hj & _).
  pose proof (rfind_range extsep p) as Hd.
  intros Hnil. apply (f_equal length) in Hnil.
  rewrite length_take in Hnil. simpl in Hnil. lia.
Qed.

(** The output paths of the callbacks are stripped strings again. *)
Lemma strip_output (p base suffix ext : str) :
  strip p = p -> base ++ ext = p -> base <> [] ->
  (exists c, last suffix = Some c /\ is_space c = false) ->
  strip (base ++ suffix ++ ext) = base ++ suffix ++ ext.
Proof.
  intros Hp Hcat Hbase (d & Hd & Hsp). apply strip_fixed.
  - intros c Hc. apply (strip_ends p). left. rewrite Hp, <- Hcat.
    destruct base; [done | done].
  - intros c Hc. rewrite !last_app in Hc.
    destruct (last ext) as [e|] eqn:He.
    + apply (strip_ends p). right. rewrite Hp, <- Hcat, last_app, He.
      congruence.
    + rewrite Hd in Hc. congruence.
Qed.

Section RoundTrip.
Variable sep : ascii.
Variable altsep : option ascii.
Variable save : Image -> str -> result file.
Variable fs : gmap str file.

(** X18: with a lossless encoder, pressing Encrypt on an image and then
    Decrypt on the file just written, with the same key field, leaves three
    files: the source as it was, [base_encrypted.ext], and
    [base_encrypted_decrypted.ext] holding the pixels of the source. *)
Theorem encrypt_then_decrypt (image_path key_value path : str) (key : Z)
    (img : Image) :
  path_separators sep altsep -> lossless save ->
  validate_inputs fs image_path key_value = Ok (Accepted path key) ->
  fs !! path = Some (ImageFile img) -> wf_image img ->
  let base := (splitext sep altsep path).1 in
  let ext := (splitext sep altsep path).2 in
  let encrypted := base ++ lit "_encrypted" ++ ext in
  let restored := base ++ lit "_encrypted" ++ lit "_decrypted" ++ ext in
  exists fs1 d1 fs2 d2 img1,
    encrypt_action sep altsep save fs image_path key_value = Ok (fs1, d1) /\
    decrypt_action sep altsep save fs1 encrypted key_value = Ok (fs2, d2) /\
    fs2 !! path = Some (ImageFile img) /\
    fs2 !! encrypted = Some (ImageFile img1) /\
    transform img key = Ok img1 /\
    fs2 !! restored = Some (ImageFile img) /\
    forall q, q <> encrypted -> q <> restored -> fs2 !! q = fs !! q.
Proof.
  intros Hsep Hsave Hv Hfile Hwf base ext encrypted restored.
  apply validate_inputs_accepted_inv in Hv as Hinv.
  destruct Hinv as (Hpath & Hne & Hisfile & Hkne & Hkd & Hint).
  destruct (transform_twice img key Hwf) as (img1 & H1 & H2).
  assert (base ++ ext = path) as Hcat by apply splitext_concat.
  assert (encrypted <> path) as Henc.
  { rewrite <- Hcat. by apply suffix_length_ne. }
  assert (restored <> path) as Hres.
  { rewrite <- Hcat. subst restored. rewrite (app_assoc (lit "_encrypted")).
    by apply suffix_length_ne. }
  assert (restored <> encrypted) as Hre.
  { intros Heq. apply (f_equal length) in Heq. subst restored encrypted.
    rewrite !length_app in Heq. simpl in Heq. lia. }
  assert (strip encrypted = encrypted) as Hstrip.
  { apply (strip_output path); [subst path; apply strip_idemp | done | |].
    - by apply splitext_base_nonempty.
    - exists "d"%char. by split. }
  assert (splitext sep altsep encrypted = (base ++ lit "_encrypted", ext))
    as Hsplit.
  { apply splitext_suffix. by apply suffix_chars_ok. }
  set (fs1 := <[encrypted := ImageFile img1]> fs).
  set (fs2 := <[restored := ImageFile img]> fs1).
  assert (encrypt_action sep altsep save fs image_path key_value
          = Ok (fs1, Some (ShowInfo (lit "Image encrypted and saved as:"
                                     ++ ["010"%char] ++ encrypted)))) as Hrun1.
  { unfold encrypt_action. rewrite Hv. simpl.
    destruct (splitext sep altsep path) as [b e] eqn:Hsp.
    subst base ext encrypted fs1. simpl in *.
    unfold transform_image, image_open. rewrite Hfile. simpl. rewrite H1.
    simpl. by rewrite Hsave. }
  assert (validate_inputs fs1 encrypted key_value = Ok (Accepted encrypted key))
    as Hv2.
  { rewrite validate_inputs_key; rewrite ?Hstrip; try done.
    - by rewrite Hint.
    - intros Hnil. apply (f_equal length) in Hnil. subst encrypted.
      rewrite !length_app in Hnil. simpl in Hnil. lia.
    - unfold isfile. apply bool_decide_eq_true_2. subst fs1.
      rewrite lookup_insert_eq. by eexists. }
  assert (decrypt_action sep altsep save fs1 encrypted key_value
          = Ok (fs2, Some (ShowInfo (lit "Image decrypted and saved as:"
                                     ++ ["010"%char] ++ restored)))) as Hrun2.
  { unfold decrypt_action. rewrite Hv2. simpl. rewrite Hsplit.
    unfold transform_image, image_open. subst fs1. rewrite lookup_insert_eq.
    simpl. rewrite H2. simpl. rewrite Hsave. simpl.
    subst fs2 restored. rewrite <- !app_assoc. reflexivity. }
  eexists fs1, _, fs2, _, img1. split; [exact Hrun1 |]. split; [exact Hrun2 |].
  subst fs2 fs1. split; [| split; [| split; [| split]]].
  - by rewrite !lookup_insert_ne.
  - rewrite lookup_insert_ne by done. by rewrite lookup_insert_eq.
  - done.
  - by rewrite lookup_insert_eq.
  - intros q Hq1 Hq2. by rewrite !lookup_insert_ne.
Qed.
End RoundTrip.

Lemma encrypt_then_decrypt_witness :
  path_separators "/" None /\ lossless save_exact /\
  validate_inputs photo_folder (lit " photo.png ") (lit "-7")
    = Ok (Accepted (lit "photo.png") (-7)) /\
  photo_folder !! lit "photo.png" = Some (ImageFile scenario) /\
  wf_image scenario /\
  let base := (splitext "/" None (lit "photo.png")).1 in
  let ext := (splitext "/" None (lit "photo.png")).2 in
  let encrypted := base ++ lit "_encrypted" ++ ext in
  let restored := base ++ lit "_encrypted" ++ lit "_decrypted" ++ ext in
  exists fs1 d1 fs2 d2 img1,
    encrypt_action "/" None save_exact photo_folder (lit " photo.png ")
      (lit "-7") = Ok (fs1, d1) /\
    decrypt_action "/" None save_exact fs1 encrypted (lit "-7")
      = Ok (fs2, d2) /\
    fs2 !! lit "photo.png" = Some (ImageFile scenario) /\
    fs2 !! encrypted = Some (ImageFile img1) /\
    transform scenario (-7) = Ok img1 /\
    fs2 !! restored = Some (ImageFile scenario) /\
    forall q, q <> encrypted -> q <> restored ->
      fs2 !! q = photo_folder !! q.
Proof.
  assert (path_separators "/" None) as H1 by (left; split; reflexivity).
  assert (lossless save_exact) as H2 by (intros img path; reflexivity).
  assert (validate_inputs photo_folder (lit " photo.png ") (lit "-7")
          = Ok (Accepted (lit "photo.png") (-7))) as H3
    by (vm_compute; reflexivity).
  assert (photo_folder !! lit "photo.png" = Some (ImageFile scenario)) as H4
    by (vm_compute; reflexivity).
  do 4 (split; [done |]). split; [exact wf_scenario |].
  apply (encrypt_then_decrypt "/" None save_exact photo_folder
           (lit " photo.png ") (lit "-7") (lit "photo.png") (-7) scenario);
    [done | done | done | done | exact wf_scenario].
Defined.

(** ** Empty buffers *)

(** X19: a buffer without pixels (width 0 or height 0) goes through the
    transform unchanged, whatever the key. *)
Theorem transform_empty (img : Image) (key : Z) :
  wf_image img -> width img = O \/ height img = O ->
  transform img key = Ok img.
Proof.
  intros Hwf Hempty.
  destruct (transform_spec img key Hwf) as (img' & H1 & Hs & Hp).
  rewrite H1. f_equal. apply image_ext; [done | done |].
  intros x y. rewrite Hp.
  rewrite !(pix_out_of_range img) by (done || lia). done.
Qed.

Lemma transform_empty_witness :
  wf_image (mkImage 0 2 [[]; []]) /\
  (width (mkImage 0 2 [[]; []]) = O \/ height (mkImage 0 2 [[]; []]) = O) /\
  transform (mkImage 0 2 [[]; []]) 9 = Ok (mkImage 0 2 [[]; []]).
Proof.
  assert (wf_image (mkImage 0 2 [[]; []])) as Hwf
    by (split; [reflexivity | repeat constructor]).
  split; [exact Hwf |]. split; [left; reflexivity |].
  apply (transform_empty (mkImage 0 2 [[]; []]) 9); [exact Hwf |].
  left; reflexivity.
Defined.
